(** * Authentication, authorization and instrumentation layer of the server

    A shallow embedding of
    - the authentication middleware [server/src/middleware/auth.js]
      (authenticate, requireRole, rateLimit), which the source tree holds in
      the second part of [server/src/middleware/requestLogger.js],
    - [server/src/utils/auth.js] (generateToken, verifyToken, extractToken),
    - [server/src/utils/performance.js] (PerformanceMonitor.startTiming,
      endTiming, timeFunction, requestMonitor, monitorDatabaseQuery and
      getHealthMetrics, with the [performance] method of
      [server/src/utils/logger.js]),
    - the guards and the slug of [server/src/routes/posts.js], which the
      source tree holds in the last part of [server/src/utils/performance.js],
    - [server/src/middleware/errorHandler.js] (errorHandler),
    together with the properties the specification states about them and
    further properties that the code shows.

    Conventions: JavaScript integers (millisecond and nanosecond clock readings,
    counts) are [Z]; a [Map] keyed by strings is a [gmap string _]; [null] /
    [undefined] results are [None]; a thrown exception is an explicit [Throw]
    result.  Clock readings ([Date.now()], [process.hrtime.bigint()]) are
    explicit arguments of the functions that read them. *)

From Stdlib Require Import QArith Lqa Ascii.
From stdpp Require Import gmap strings list fin_maps pretty.

Local Open Scope string_scope.
Local Open Scope list_scope.
Local Open Scope Z_scope.

(** ** HTTP responses produced by the middlewares *)

(** What a middleware does with the request: either it calls [next()], or it
    answers with [res.status(status).json(body)].  The JSON bodies of this
    layer are flat objects with string values. *)
Inductive response :=
| Next
| Json (status : Z) (body : list (string * string)).

(** ** Rate limiter : [rateLimit] of middleware/auth.js *)

Module RateLimit.

(** The two parameters of [rateLimit(maxRequests, windowMs)]. *)
Record config := { maxRequests : Z; windowMs : Z }.

(** [rateLimit()] : maxRequests = 100, windowMs = 15 * 60 * 1000. *)
Definition default_config : config :=
  {| maxRequests := 100; windowMs := 15 * 60 * 1000 |}.

(** [timestamps.filter(timestamp => timestamp > windowStart)] *)
Definition live (windowStart : Z) (timestamps : list Z) : list Z :=
  List.filter (λ timestamp, windowStart <? timestamp) timestamps.

(** One iteration of the cleaning loop:
    [requests.set(ip, timestamps.filter(..));
     if (requests.get(ip).length === 0) requests.delete(ip);] *)
Definition clean_entry (windowStart : Z) (ip : string) (timestamps : list Z)
    (requests : gmap string (list Z)) : gmap string (list Z) :=
  let requests := <[ip := live windowStart timestamps]> requests in
  if (length (default [] (requests !! ip)) =? 0)%nat
  then delete ip requests
  else requests.

(** [for (const [ip, timestamps] of requests) { ... }] : every entry of the
    map is visited once and only the visited entry is touched. *)
Definition clean (windowStart : Z) (requests : gmap string (list Z))
    : gmap string (list Z) :=
  map_fold (clean_entry windowStart) requests requests.

Definition too_many : response := Json 429 [("error", "Too many requests")].

(** The middleware returned by [rateLimit(maxRequests, windowMs)], applied
    to a request with [req.ip = key] when [Date.now() = now]; [requests] is
    the [Map] captured by the closure.  Returns the response and the map
    after the call. *)
Definition rateLimit (cfg : config) (requests : gmap string (list Z))
    (key : string) (now : Z) : response * gmap string (list Z) :=
  let windowStart := now - windowMs cfg in
  let requests := clean windowStart requests in
  let userRequests := default [] (requests !! key) in
  if maxRequests cfg <=? Z.of_nat (length userRequests)
  then (too_many, requests)
  else (Next, <[key := userRequests ++ [now]]> requests).

(** The window of a key: [requests.get(key) || []]. *)
Definition window (requests : gmap string (list Z)) (key : string) : list Z :=
  default [] (requests !! key).

(** A sequence of calls of the same middleware; each event is the key and
    the clock reading of one request.  The result lists the key and the
    response of every call, in order, and gives the final map. *)
Fixpoint run (cfg : config) (requests : gmap string (list Z))
    (events : list (string * Z))
    : list (string * response) * gmap string (list Z) :=
  match events with
  | [] => ([], requests)
  | (key, now) :: events =>
      let '(r, requests) := rateLimit cfg requests key now in
      let '(rs, requests) := run cfg requests events in
      ((key, r) :: rs, requests)
  end.

(** The clock readings of a sequence of calls never go backwards. *)
Fixpoint chronological (last : Z) (events : list (string * Z)) : Prop :=
  match events with
  | [] => True
  | (_, now) :: events => last <= now ∧ chronological now events
  end.

(** The behaviour of one key seen in isolation: its window alone decides
    the response and is updated the way [rateLimit] updates it. *)
Definition key_step (cfg : config) (timestamps : list Z) (now : Z)
    : response * list Z :=
  let kept := live (now - windowMs cfg) timestamps in
  if maxRequests cfg <=? Z.of_nat (length kept)
  then (too_many, kept)
  else (Next, kept ++ [now]).

Fixpoint key_run (cfg : config) (timestamps : list Z) (times : list Z)
    : list response * list Z :=
  match times with
  | [] => ([], timestamps)
  | now :: times =>
      let '(r, timestamps) := key_step cfg timestamps now in
      let '(rs, timestamps) := key_run cfg timestamps times in
      (r :: rs, timestamps)
  end.

(** Projections of a trace on one key. *)
Definition events_of (key : string) (events : list (string * Z)) : list Z :=
  snd <$> List.filter (λ e, bool_decide (fst e = key)) events.

Definition responses_of (key : string) (rs : list (string * response))
    : list response :=
  snd <$> List.filter (λ e, bool_decide (fst e = key)) rs.

(** What the cleaning loop leaves of one window. *)
Definition swept (windowStart : Z) (timestamps : list Z) : option (list Z) :=
  match live windowStart timestamps with
  | [] => None
  | kept => Some kept
  end.

(** Every timestamp is either expired when the window [base, base + W)
    opens, or inside that window. *)
Definition fits (base W : Z) (timestamps : list Z) : Prop :=
  ∀ t, t ∈ timestamps → t <= base - W ∨ base <= t < base + W.

(** The clock readings of the requests that were let through, given the
    readings of the requests and the responses they got. *)
Fixpoint admitted (times : list Z) (rs : list response) : list Z :=
  match times, rs with
  | now :: times, Next :: rs => now :: admitted times rs
  | _ :: times, _ :: rs => admitted times rs
  | _, _ => []
  end.

(** The readings that lie in the interval (t - W, t]. *)
Definition within (W t : Z) (times : list Z) : list Z :=
  List.filter (λ now, (t - W <? now) && (now <=? t)) times.

(** Readings in non-decreasing order, none before [last]. *)
Fixpoint ascending (last : Z) (times : list Z) : Prop :=
  match times with
  | [] => True
  | now :: times => last <= now ∧ ascending now times
  end.

(** Two maps that differ only in timestamps that are expired for every
    request made at [since] or later. *)
Definition same_live (W since : Z) (m1 m2 : gmap string (list Z)) : Prop :=
  ∀ key windowStart, since - W <= windowStart →
    live windowStart (window m1 key) = live windowStart (window m2 key).

End RateLimit.

(** ** JavaScript values and exceptions *)

Module JS.

(** The primitive values a decoded JSON attribute can hold; an attribute
    that is not there reads as [undefined].  Numbers are the integers. *)
Inductive jsval :=
| JUndefined
| JNull
| JBool (b : bool)
| JNum (n : Z)
| JStr (s : string).

#[export] Instance jsval_eq_dec : EqDecision jsval.
Proof. solve_decision. Defined.

(** [!!v] *)
Definition truthy (v : jsval) : bool :=
  match v with
  | JUndefined | JNull => false
  | JBool b => b
  | JNum n => negb (n =? 0)
  | JStr s => negb (s =? "")%string
  end.

(** [a === b] on primitive values. *)
Definition strict_eq (a b : jsval) : bool := bool_decide (a = b).

(** [!s] for a value that is a string, [null] or [undefined]. *)
Definition falsy_string (s : option string) : bool :=
  match s with
  | None => true
  | Some s => (s =? "")%string
  end.

(** [new Error(message)] *)
Inductive error := Error (message : string).

(** The outcome of a call that may throw. *)
Inductive result (E A : Type) :=
| Return (a : A)
| Throw (e : E).
Arguments Return {E A} a.
Arguments Throw {E A} e.

(** [String.prototype.trim] removes white space and line terminators; on
    the one-byte code units of a header value these are TAB, LF, VT, FF, CR,
    SPACE and NBSP. *)
Definition is_white_space (c : ascii) : bool :=
  let n := N_of_ascii c in
  ((9 <=? n) && (n <=? 13) || (n =? 32) || (n =? 160))%N.

Fixpoint trimStart (s : string) : string :=
  match s with
  | EmptyString => EmptyString
  | String c s' => if is_white_space c then trimStart s' else s
  end.

Fixpoint trimEnd (s : string) : string :=
  match s with
  | EmptyString => EmptyString
  | String c s' =>
      let r := trimEnd s' in
      if is_white_space c && (r =? "")%string then EmptyString else String c r
  end.

Definition trim (s : string) : string := trimEnd (trimStart s).

(** [s.substring(start)] : the characters from index [start] to the end. *)
Fixpoint substring (start : nat) (s : string) : string :=
  match start, s with
  | O, _ => s
  | S n, EmptyString => EmptyString
  | S n, String _ s' => substring n s'
  end.

(** [s.startsWith(p)] *)
Fixpoint startsWith (s p : string) {struct p} : bool :=
  match p, s with
  | EmptyString, _ => true
  | String _ _, EmptyString => false
  | String a p', String b s' => Ascii.eqb a b && startsWith s' p'
  end.

(** A string of white space only. *)
Fixpoint all_white (s : string) : bool :=
  match s with
  | EmptyString => true
  | String c s' => is_white_space c && all_white s'
  end.

(** The first, respectively last, character is white space. *)
Definition starts_white (s : string) : bool :=
  match s with
  | EmptyString => false
  | String c _ => is_white_space c
  end.

Fixpoint ends_white (s : string) : bool :=
  match s with
  | EmptyString => false
  | String c EmptyString => is_white_space c
  | String _ s' => ends_white s'
  end.

(** The first [n] characters of a string. *)
Fixpoint first_chars (n : nat) (s : string) : string :=
  match n, s with
  | O, _ => EmptyString
  | S _, EmptyString => EmptyString
  | S n, String c s' => String c (first_chars n s')
  end.

(** [s.substring(a, b)] : the characters from index [min a b] up to, not
    including, index [max a b]. *)
Definition substring_between (a b : nat) (s : string) : string :=
  first_chars (Nat.max a b - Nat.min a b) (substring (Nat.min a b) s).

(** [{ ...o, [k]: v }] on an object with string values, the properties in
    their order: an own property [k] keeps its place and takes the value
    [v]; otherwise [k] comes last. *)
Fixpoint set_property (k v : string) (o : list (string * string))
    : list (string * string) :=
  match o with
  | [] => [(k, v)]
  | (k', v') :: o' =>
      if (k' =? k)%string then (k, v) :: o' else (k', v') :: set_property k v o'
  end.

(** [o] without its property [k]. *)
Definition delete_property (k : string) (o : list (string * string))
    : list (string * string) :=
  List.filter (λ p, negb (fst p =? k)%string) o.

(** What reading [error.message] gives, for a value [error] caught by a
    [catch] block: reading a property of [null] or of [undefined] throws a
    [TypeError]; a value with no such property (a thrown string or number, a
    plain object) gives [undefined]; an [Error] gives its message. *)
Inductive message_reading :=
| unreadable
| no_message
| message_is (message : string).

(** The values thrown in this code base: a primitive value or an [Error]. *)
Inductive thrown :=
| primitive (v : jsval)
| object (e : error).

(** [error.message] *)
Definition read_message (error : thrown) : message_reading :=
  match error with
  | primitive JUndefined | primitive JNull => unreadable
  | primitive _ => no_message
  | object (Error message) => message_is message
  end.

End JS.

(** ** JSON Web Tokens : the [jsonwebtoken] dependency *)

Module Jwt.
Import JS.

(** The payload object of a token.  [generateToken] fills [userId] and
    [username]; [role] is read by [requireRole]; [iat] and [exp] are the
    registered claims, in seconds since the epoch. *)
Record payload := {
  userId : jsval;
  username : jsval;
  role : jsval;
  iat : option Z;
  exp : option Z
}.

(** A decoded token: the algorithm named by its header, its payload and
    its signature part. *)
Record jws := { alg : string; claims : payload; signature : string }.

(** Modelled from the spec: the keyed signature and the compact
    serialization of [jsonwebtoken], a dependency whose code is not among
    the sources ("signs it with a process-wide secret, returns an opaque
    string token"; "parses and checks signature").  [hs256 secret alg p] is
    the signature of header and payload under [secret]; [parse] inverts
    [compact], and is [None] on a string that is not a token. *)
Class Codec := {
  hs256 : string → string → payload → string;
  compact : jws → string;
  parse : string → option jws;
  parse_compact : ∀ j, parse (compact j) = Some j
}.

(** The errors [jwt.verify] throws. *)
Inductive jwt_error :=
| JsonWebTokenError (message : string)
| TokenExpiredError (message : string).

(** ['7d'] in milliseconds. *)
Definition ms_7d : Z := 7 * 24 * 60 * 60 * 1000.

(** Modelled from the spec: [jwt.sign(payload, secret, { expiresIn })]
    "builds an Identity Claim with issuedAt = now, expiresAt = now + 7 days
    (configurable), signs it with a process-wide secret, returns an opaque
    string token".  [now] is [Date.now()], in milliseconds; the registered
    claims are in whole seconds. *)
Definition sign `{Codec} (p : payload) (secret : string) (expiresIn : Z)
    (now : Z) : string :=
  let timestamp := now / 1000 in
  let p := {| userId := userId p; username := username p; role := role p;
              iat := Some timestamp;
              exp := Some (timestamp + expiresIn / 1000) |} in
  compact {| alg := "HS256"; claims := p; signature := hs256 secret "HS256" p |}.

(** Modelled from the spec: [jwt.verify(token, secret)] "parses and checks
    signature and expiry.  Fails ... if signature check fails, structure is
    malformed, or now >= expiresAt".  The signature is checked before the
    expiry; a payload without [exp] does not expire. *)
Definition verify `{Codec} (token : string) (secret : string) (now : Z)
    : result jwt_error payload :=
  match parse token with
  | None => Throw (JsonWebTokenError "jwt malformed")
  | Some j =>
      if negb (signature j =? hs256 secret (alg j) (claims j))%string
      then Throw (JsonWebTokenError "invalid signature")
      else match exp (claims j) with
           | Some e =>
               if e <=? now / 1000
               then Throw (TokenExpiredError "jwt expired")
               else Return (claims j)
           | None => Return (claims j)
           end
  end.

End Jwt.

(** ** utils/auth.js and middleware/auth.js *)

Module Auth.
Import JS.

(** The user object handed to [generateToken]. *)
Record user := { _id : string; username : string }.

(** [process.env], as far as this layer reads it. *)
Record env := { JWT_SECRET : option string }.

(** [process.env.JWT_SECRET || 'default-secret-key'] *)
Definition secret (e : env) : string :=
  if falsy_string (JWT_SECRET e) then "default-secret-key"
  else default "" (JWT_SECRET e).

(** [generateToken(user)], called when [Date.now() = now]. *)
Definition generateToken `{Jwt.Codec} (e : env) (now : Z) (u : user) : string :=
  Jwt.sign
    {| Jwt.userId := JStr (_id u); Jwt.username := JStr (username u);
       Jwt.role := JUndefined; Jwt.iat := None; Jwt.exp := None |}
    (secret e) Jwt.ms_7d now.

(** [verifyToken(token)] : whatever [jwt.verify] throws is replaced by
    [new Error('Invalid token')]. *)
Definition verifyToken `{Jwt.Codec} (e : env) (now : Z) (token : string)
    : result error Jwt.payload :=
  match Jwt.verify token (secret e) now with
  | Return decoded => Return decoded
  | Throw _ => Throw (Error "Invalid token")
  end.

(** [extractToken(authHeader)] *)
Definition extractToken (authHeader : option string) : option string :=
  match authHeader with
  | None => None
  | Some h =>
      if (h =? "")%string || negb (startsWith h "Bearer ")
      then None
      else Some (trim (substring 7 h))
  end.

(** [authenticate(req, res, next)] with [req.headers.authorization =
    authorization].  The first component is [req.user] after the call. *)
Definition authenticate `{Jwt.Codec} (e : env) (now : Z)
    (authorization : option string) : option Jwt.payload * response :=
  let token := extractToken authorization in
  if falsy_string token
  then (None, Json 401 [("error", "Access token required")])
  else match verifyToken e now (default "" token) with
       | Return decoded => (Some decoded, Next)
       | Throw _ => (None, Json 401 [("error", "Invalid or expired token")])
       end.

(** [req.user.role], for a [req.user] that is an object. *)
Definition user_role (u : option Jwt.payload) : jsval :=
  from_option Jwt.role JUndefined u.

(** [requireRole(role)(req, res, next)] with [req.user = u]. *)
Definition requireRole (role : jsval) (u : option Jwt.payload) : response :=
  if negb (bool_decide (is_Some u)) || negb (truthy (user_role u))
  then Json 403 [("error", "Role information not found")]
  else if negb (strict_eq (user_role u) role)
  then Json 403 [("error", "Insufficient permissions")]
  else Next.

(** What reading a property of [undefined] throws. *)
Inductive thrown := TypeError.

(** [req.params.userId]: a route parameter is a string; a name that the
    route pattern does not bind reads as [undefined]. *)
Definition param (params : gmap string string) (name : string) : jsval :=
  from_option JStr JUndefined (params !! name).

(** [requireOwnership(req, res, next)] with [req.params = params] and
    [req.user = u]; reading [req.user.userId] throws when [req.user] is
    [undefined]. *)
Definition requireOwnership (params : gmap string string)
    (u : option Jwt.payload) : result thrown response :=
  match u with
  | None => Throw TypeError
  | Some user =>
      if negb (strict_eq (param params "userId") (Jwt.userId user))
      then Return (Json 403 [("error", "Access denied. Not the owner.")])
      else Return Next
  end.

(** The middlewares in front of [PUT /api/posts/:id] and
    [DELETE /api/posts/:id] in routes/posts.js,
    [router.put('/:id', authenticate, requireOwnership, ...)]: the route
    binds the parameter [id] only, and [requireOwnership] runs when
    [authenticate] has called [next]. *)
Definition post_owner_guard `{Jwt.Codec} (e : env) (now : Z)
    (authorization : option string) (id : string) : result thrown response :=
  let '(u, r) := authenticate e now authorization in
  match r with
  | Next => requireOwnership {["id" := id]} u
  | Json _ _ => Return r
  end.

(** [authenticate] followed by [requireRole(role)]. *)
Definition role_guard `{Jwt.Codec} (e : env) (now : Z)
    (authorization : option string) (role : jsval) : response :=
  let '(u, r) := authenticate e now authorization in
  match r with
  | Next => requireRole role u
  | Json _ _ => r
  end.

(** The payload of the token that [generateToken] makes. *)
Definition issued_claim (u : user) (issued : Z) : Jwt.payload :=
  {| Jwt.userId := JStr (_id u); Jwt.username := JStr (username u);
     Jwt.role := JUndefined; Jwt.iat := Some (issued / 1000);
     Jwt.exp := Some (issued / 1000 + 7 * 24 * 60 * 60) |}.

End Auth.

(** ** utils/performance.js : [PerformanceMonitor] *)

Module Perf.

(** A value stored in [this.metrics]. *)
Record metric := { startTime : Z; operationId : string }.

(** What reaches [perfLogger]: [warn(message)], and
    [performance(operation, duration, details)], which logs at level
    ['warn'] when [duration > 1000] and at ['debug'] otherwise. *)
Inductive log_entry :=
| warn (message : string)
| performance (level : string) (operation : string) (duration : Q)
    (details : list (string * string)).

(** The monitor (its [metrics] map) together with the log written so far. *)
Record monitor := { metrics : gmap string metric; log : list log_entry }.

(** [new PerformanceMonitor()] *)
Definition new : monitor := {| metrics := ∅; log := [] |}.

(** [startTiming(operationId)] when [process.hrtime.bigint() = now]. *)
Definition startTiming (m : monitor) (id : string) (now : Z) : monitor :=
  {| metrics := <[id := {| startTime := now; operationId := id |}]> (metrics m);
     log := log m |}.

(** [Number(endTime - metric.startTime) / 1000000], the difference of two
    readings of the nanosecond clock in milliseconds.  It is taken as the
    exact quotient; the code holds the double next to it: each of the two
    roundings, of [Number] and of the division, moves the value by a factor
    within [1 - 2^-53] and [1 + 2^-53].  Statements about durations are put
    so that this margin does not matter to them. *)
Definition elapsed_ms (endTime start : Z) : Q := (endTime - start) # 1000000.

(** [endTiming(operationId, additionalData)] when
    [process.hrtime.bigint() = now]; the first component is the returned
    value, [None] for [undefined]. *)
Definition endTiming (m : monitor) (id : string)
    (additionalData : list (string * string)) (now : Z)
    : option Q * monitor :=
  match metrics m !! id with
  | None =>
      (None,
       {| metrics := metrics m;
          log := log m ++ [warn ("No timing started for operation: " +:+ id)] |})
  | Some metric =>
      let duration := elapsed_ms now (startTime metric) in
      let level := if Qle_bool duration 1000 then "debug" else "warn" in
      (Some duration,
       {| metrics := delete id (metrics m);
          log := log m ++ [performance level id duration additionalData] |})
  end.

(** [this.slowRequestThreshold], in milliseconds. *)
Definition slowRequestThreshold : Q := 1000.

(** How a call of [timeFunction] or of [monitorDatabaseQuery] fails: with
    the value [fn()] was rejected with, thrown again, or with a [TypeError]
    of its own. *)
Inductive failure (V : Type) :=
| type_error
| rejected (error : V).
Arguments type_error {V}.
Arguments rejected {V} error.

(** [{ ...additionalData, error: message }] on an object with string
    values: a property set to [undefined] holds no string, and is not
    printed when the entry is written. *)
Definition with_error (message : JS.message_reading)
    (additionalData : list (string * string)) : list (string * string) :=
  match message with
  | JS.message_is message => JS.set_property "error" message additionalData
  | _ => JS.delete_property "error" additionalData
  end.

(** [timeFunction(operationId, fn, additionalData)].  [fn] stands for the
    awaited call [fn()]: it yields the value the promise is fulfilled with
    or the value, of any type [V], it is rejected with, and the monitor as
    it is when the promise settles (other operations may have run
    meanwhile).  [message] reads [error.message] off a value of [V].  The
    [catch] block evaluates [error.message] before it calls [endTiming]:
    when that throws, [endTiming] is not called and the [TypeError] leaves
    the function in place of [error].  [t0] and [t1] are the readings of
    [process.hrtime.bigint()] at the start and at the end. *)
Definition timeFunction {A V : Type} (message : V → JS.message_reading)
    (m : monitor) (id : string) (fn : monitor → JS.result V A * monitor)
    (additionalData : list (string * string)) (t0 t1 : Z)
    : JS.result (failure V) A * monitor :=
  let m := startTiming m id t0 in
  match fn m with
  | (JS.Return r, m) =>
      (JS.Return r, snd (endTiming m id additionalData t1))
  | (JS.Throw error, m) =>
      match message error with
      | JS.unreadable => (JS.Throw type_error, m)
      | reading =>
          (JS.Throw (rejected error),
           snd (endTiming m id (with_error reading additionalData) t1))
      end
  end.

(** [`db-${operation}-${collection}-${Date.now()}`] *)
Definition query_id (operation collection : string) (now : Z) : string :=
  "db-" +:+ operation +:+ "-" +:+ collection +:+ "-" +:+ pretty now.

(** [monitorDatabaseQuery(operation, collection, query, fn)].  [json] is
    [JSON.stringify(query)], [None] when it is [undefined]: reading
    [substring] of it then throws a [TypeError]; [now] is [Date.now()].  The
    arguments of [timeFunction] are evaluated before the call. *)
Definition monitorDatabaseQuery {A V : Type} (message : V → JS.message_reading)
    (m : monitor) (operation collection : string) (json : option string)
    (fn : monitor → JS.result V A * monitor) (now t0 t1 : Z)
    : JS.result (failure V) A * monitor :=
  let operationId := query_id operation collection now in
  match json with
  | None => (JS.Throw type_error, m)
  | Some text =>
      timeFunction message m operationId fn
        [("operation", operation); ("collection", collection);
         ("query", JS.substring_between 0 200 text)] t0 t1
  end.

(** [`request-${req.method}-${req.url}-${Date.now()}`] *)
Definition request_id (method url : string) (now : Z) : string :=
  "request-" +:+ method +:+ "-" +:+ url +:+ "-" +:+ pretty now.

(** [requestMonitor(req, res, next)] up to [next()]: the operation id that
    the replaced [res.end] closes over, and the monitor.  [now] is
    [Date.now()], [hr] is [process.hrtime.bigint()]. *)
Definition requestMonitor (m : monitor) (method url : string) (now hr : Z)
    : string * monitor :=
  let operationId := request_id method url now in
  (operationId, startTiming m operationId hr).

(** The [res.end] that [requestMonitor] installs, up to the call of the
    original [end].  [details] is the object [{ method, url, statusCode,
    userAgent, ip }] handed to [endTiming]; [show] renders a number inside a
    template string.  A [duration] that is [undefined] is not greater than
    the threshold. *)
Definition requestMonitor_end (show : Q → string) (m : monitor)
    (operationId method url : string) (details : list (string * string))
    (hr : Z) : monitor :=
  let '(duration, m) := endTiming m operationId details hr in
  match duration with
  | Some d =>
      if Qle_bool d slowRequestThreshold then m
      else {| metrics := metrics m;
              log := log m ++ [warn ("Slow request detected: " +:+ method +:+ " "
                                     +:+ url +:+ " took " +:+ show d +:+ "ms")] |}
  | None => m
  end.

(** [getHealthMetrics().activeMetrics] : [this.metrics.size]. *)
Definition activeMetrics (m : monitor) : nat := size (metrics m).

(** A call of [startTiming] or [endTiming], and a sequence of them. *)
Inductive call :=
| Start (id : string) (now : Z)
| End (id : string) (additionalData : list (string * string)) (now : Z).

Definition call_id (c : call) : string :=
  match c with
  | Start id _ => id
  | End id _ _ => id
  end.

Definition perform (m : monitor) (c : call) : monitor :=
  match c with
  | Start id now => startTiming m id now
  | End id additionalData now => snd (endTiming m id additionalData now)
  end.

End Perf.

(** ** middleware/errorHandler.js *)

Module ErrorHandler.
Import JS.

(** The properties of the error object that [errorHandler] reads. *)
Record err := { name : jsval; message : jsval; stack : jsval; code : jsval }.

(** The status code and the message chosen for an error. *)
Definition classify (e : err) : Z * string :=
  if strict_eq (name e) (JStr "ValidationError") then (400, "Validation Error")
  else if strict_eq (name e) (JStr "CastError") then (400, "Invalid ID format")
  else if strict_eq (name e) (JStr "JsonWebTokenError") then (401, "Invalid token")
  else if strict_eq (name e) (JStr "TokenExpiredError") then (401, "Token expired")
  else if strict_eq (code e) (JNum 11000) then (409, "Duplicate entry")
  else (500, "Internal Server Error").

(** [errorHandler(err, req, res, next)] with [process.env.NODE_ENV =
    node_env]: the status and the JSON object of the answer.  Spreading
    [false] adds no property. *)
Definition errorHandler (node_env : option string) (e : err)
    : Z * list (string * jsval) :=
  let '(statusCode, msg) := classify e in
  let isDevelopment := bool_decide (node_env = Some "development") in
  (statusCode,
   ("error", JStr msg)
   :: (if isDevelopment then [("details", message e); ("stack", stack e)] else [])).

End ErrorHandler.

(** ** routes/posts.js : the slug of a post *)

Module Posts.

(** A title is a JavaScript string, a sequence of UTF-16 code units; the
    two regular expressions have no [u] flag and work on code units. *)

(** [[a-z0-9]] *)
Definition is_slug_char (c : Z) : bool :=
  ((97 <=? c) && (c <=? 122)) || ((48 <=? c) && (c <=? 57)).

(** ['-'] *)
Definition dash : Z := 45.

(** [.replace(/[^a-z0-9]+/g, '-')] : every maximal run of other code units
    becomes one dash; [in_run] tells that the run has already got its dash. *)
Fixpoint replace_runs (in_run : bool) (s : list Z) : list Z :=
  match s with
  | [] => []
  | c :: s' =>
      if is_slug_char c then c :: replace_runs false s'
      else if in_run then replace_runs true s'
      else dash :: replace_runs true s'
  end.

(** [.replace(/^-|-$/g, '')] : a dash at the start goes, then a dash at
    the end of what is left. *)
Fixpoint strip_last_dash (s : list Z) : list Z :=
  match s with
  | [] => []
  | [c] => if c =? dash then [] else [c]
  | c :: s' => c :: strip_last_dash s'
  end.

Definition strip_dashes (s : list Z) : list Z :=
  strip_last_dash (match s with
                   | c :: s' => if c =? dash then s' else s
                   | [] => []
                   end).

(** [title.toLowerCase().replace(/[^a-z0-9]+/g, '-').replace(/^-|-$/g, '')],
    the slug stored when a post is created or its title is updated;
    [toLowerCase] is [String.prototype.toLowerCase]. *)
Definition slug (toLowerCase : list Z → list Z) (title : list Z) : list Z :=
  strip_dashes (replace_runs false (toLowerCase title)).

(** No two dashes in a row. *)
Definition single_dashes (s : list Z) : Prop :=
  ∀ i, s !! i = Some dash → s !! S i ≠ Some dash.

End Posts.

(** ** A codec to run the token functions on *)

(** The codec interface is realised by a serialization of tokens as strings
    of binary digits; the signature of this codec is not secure, it only
    names the secret and the algorithm. *)
Module BitCodec.
Import JS.

Fixpoint digits (p : positive) : string :=
  match p with
  | xH => EmptyString
  | xO p => String "0" (digits p)
  | xI p => String "1" (digits p)
  end.

Fixpoint undigits (s : string) : option positive :=
  match s with
  | EmptyString => Some xH
  | String c s =>
      p ← undigits s;
      if Ascii.eqb c "0" then Some (xO p)
      else if Ascii.eqb c "1" then Some (xI p)
      else None
  end.

Lemma undigits_digits p : undigits (digits p) = Some p.
Proof. induction p as [p IH|p IH|]; simpl; by rewrite ?IH. Qed.

#[export] Instance jsval_countable : Countable jsval.
Proof.
  refine (inj_countable'
            (λ v, match v with
                  | JUndefined => inl (inl ())
                  | JNull => inl (inr ())
                  | JBool b => inr (inl b)
                  | JNum n => inr (inr (inl n))
                  | JStr s => inr (inr (inr s))
                  end)
            (λ x, match x with
                  | inl (inl _) => JUndefined
                  | inl (inr _) => JNull
                  | inr (inl b) => JBool b
                  | inr (inr (inl n)) => JNum n
                  | inr (inr (inr s)) => JStr s
                  end) _).
  by intros [].
Defined.

#[export] Instance payload_eq_dec : EqDecision Jwt.payload.
Proof. solve_decision. Defined.

#[export] Instance payload_countable : Countable Jwt.payload.
Proof.
  refine (inj_countable'
            (λ p, (Jwt.userId p, Jwt.username p, Jwt.role p, Jwt.iat p, Jwt.exp p))
            (λ '(u, n, r, i, e),
               {| Jwt.userId := u; Jwt.username := n; Jwt.role := r;
                  Jwt.iat := i; Jwt.exp := e |}) _).
  by intros [].
Defined.

#[export] Instance jws_eq_dec : EqDecision Jwt.jws.
Proof. solve_decision. Defined.

#[export] Instance jws_countable : Countable Jwt.jws.
Proof.
  refine (inj_countable'
            (λ j, (Jwt.alg j, Jwt.claims j, Jwt.signature j))
            (λ '(a, c, g), {| Jwt.alg := a; Jwt.claims := c; Jwt.signature := g |})
            _).
  by intros [].
Defined.

#[export] Program Instance codec : Jwt.Codec := {|
  Jwt.hs256 secret alg p := secret +:+ "." +:+ alg;
  Jwt.compact j := digits (encode j);
  Jwt.parse s := undigits s ≫= decode
|}.
Next Obligation.
  intros j. simpl. rewrite undigits_digits. simpl. apply decode_encode.
Qed.

End BitCodec.

(** * Properties *)

(** ** The rate limiter *)

Section RateLimitFacts.
Import RateLimit.

Implicit Types (cfg : config) (requests : gmap string (list Z)).
Implicit Types (key : string) (now windowStart : Z) (timestamps : list Z).

Lemma elem_of_live windowStart timestamps t :
  t ∈ live windowStart timestamps ↔ t ∈ timestamps ∧ windowStart < t.
Proof.
  unfold live. rewrite !list_elem_of_In, filter_In, Z.ltb_lt. tauto.
Qed.

Lemma live_all windowStart timestamps :
  (∀ t, t ∈ timestamps → windowStart < t) → live windowStart timestamps = timestamps.
Proof.
  induction timestamps as [|t l IH]; intros Hall; [done|]. simpl.
  assert ((windowStart <? t) = true) as -> by (apply Z.ltb_lt, Hall; left).
  f_equal. apply IH. intros u Hu. apply Hall. by right.
Qed.

Lemma live_none windowStart timestamps :
  (∀ t, t ∈ timestamps → t <= windowStart) → live windowStart timestamps = [].
Proof.
  induction timestamps as [|t l IH]; intros Hall; [done|]. simpl.
  assert ((windowStart <? t) = false) as ->.
  { apply Z.ltb_ge, Hall. left. }
  apply IH. intros u Hu. apply Hall. by right.
Qed.

Lemma live_live a b timestamps :
  a <= b → live b (live a timestamps) = live b timestamps.
Proof.
  intros Hab. induction timestamps as [|t l IH]; [done|]. simpl.
  destruct (a <? t) eqn:Ea; simpl.
  - by rewrite IH.
  - rewrite IH. apply Z.ltb_ge in Ea.
    assert ((b <? t) = false) as -> by (apply Z.ltb_ge; lia). done.
Qed.

Lemma live_app windowStart l1 l2 :
  live windowStart (l1 ++ l2) = live windowStart l1 ++ live windowStart l2.
Proof. unfold live. apply List.filter_app. Qed.

Lemma lookup_clean_from windowStart (base requests : gmap string (list Z)) key :
  map_fold (clean_entry windowStart) base requests !! key =
  match requests !! key with
  | Some timestamps => swept windowStart timestamps
  | None => base !! key
  end.
Proof.
  revert key.
  apply (map_fold_weak_ind
           (λ r m, ∀ key, r !! key = match m !! key with
                                      | Some ts => swept windowStart ts
                                      | None => base !! key
                                      end)).
  - intros key. by rewrite lookup_empty.
  - intros i x m r Hi IH key. unfold clean_entry.
    rewrite lookup_insert_eq. simpl.
    destruct (decide (i = key)) as [->|Hne].
    + rewrite lookup_insert_eq. unfold swept.
      destruct (live windowStart x) eqn:E; simpl.
      * by rewrite lookup_delete_eq.
      * by rewrite lookup_insert_eq.
    + rewrite (lookup_insert_ne m) by done.
      destruct (length (live windowStart x) =? 0)%nat.
      * rewrite lookup_delete_ne, lookup_insert_ne by done. apply IH.
      * rewrite lookup_insert_ne by done. apply IH.
Qed.

(** The cleaning loop is a map-wide sweep. *)
Lemma lookup_clean windowStart requests key :
  clean windowStart requests !! key = requests !! key ≫= swept windowStart.
Proof.
  unfold clean. rewrite lookup_clean_from.
  by destruct (requests !! key).
Qed.

Lemma window_clean windowStart requests key :
  window (clean windowStart requests) key = live windowStart (window requests key).
Proof.
  unfold window. rewrite lookup_clean.
  destruct (requests !! key) as [ts|]; simpl; [|done].
  unfold swept. by destruct (live windowStart ts).
Qed.

Lemma swept_Some windowStart timestamps kept :
  swept windowStart timestamps = Some kept →
  kept = live windowStart timestamps ∧ kept ≠ [].
Proof.
  unfold swept. destruct (live windowStart timestamps); [done|].
  intros [= <-]. done.
Qed.

Lemma swept_id windowStart timestamps :
  timestamps ≠ [] → (∀ t, t ∈ timestamps → windowStart < t) →
  swept windowStart timestamps = Some timestamps.
Proof.
  intros Hne Hall. unfold swept. rewrite live_all by done.
  by destruct timestamps.
Qed.

(** The response and the new window of the touched key are those of the
    key taken in isolation. *)
Lemma rateLimit_self cfg requests key now :
  (fst (rateLimit cfg requests key now),
   window (snd (rateLimit cfg requests key now)) key)
  = key_step cfg (window requests key) now.
Proof.
  unfold rateLimit, key_step.
  fold (window (clean (now - windowMs cfg) requests) key).
  rewrite window_clean.
  destruct (maxRequests cfg <=? _); simpl.
  - by rewrite window_clean.
  - unfold window at 1. by rewrite lookup_insert_eq.
Qed.

(** The entry of any other key is swept, and nothing else. *)
Lemma rateLimit_other_lookup cfg requests key now key' :
  key' ≠ key →
  snd (rateLimit cfg requests key now) !! key'
  = requests !! key' ≫= swept (now - windowMs cfg).
Proof.
  intros Hne. unfold rateLimit.
  destruct (maxRequests cfg <=? _); simpl.
  - apply lookup_clean.
  - rewrite lookup_insert_ne by done. apply lookup_clean.
Qed.

Lemma rateLimit_other cfg requests key now key' :
  key' ≠ key →
  window (snd (rateLimit cfg requests key now)) key'
  = live (now - windowMs cfg) (window requests key').
Proof.
  intros Hne. unfold window at 1. rewrite rateLimit_other_lookup by done.
  rewrite <- lookup_clean. apply window_clean.
Qed.

Lemma key_step_live cfg l1 l2 now :
  live (now - windowMs cfg) l1 = live (now - windowMs cfg) l2 →
  key_step cfg l1 now = key_step cfg l2 now.
Proof. unfold key_step. by intros ->. Qed.

(** *** Retention invariant *)

(** C5, counterexample: with a window of zero milliseconds an admitted
    request leaves its own timestamp in the map, and that timestamp is not
    newer than [now - 0]. *)
Lemma zero_window_retains_current_timestamp :
  snd (rateLimit {| maxRequests := 1; windowMs := 0 |} ∅ "10.0.0.1" 5)
    !! "10.0.0.1" = Some [5]
  ∧ ¬ (5 - 0 < 5).
Proof. split; [by vm_compute | lia]. Qed.

(** C5, as amended: when the window duration is positive, after every call
    of the middleware at time [now], allowed or denied, every timestamp
    kept under every key is newer than [now - windowMs], and no key is left
    with an empty sequence. *)
Theorem window_invariant cfg requests key now key' timestamps :
  0 < windowMs cfg →
  snd (rateLimit cfg requests key now) !! key' = Some timestamps →
  timestamps ≠ [] ∧ Forall (λ t, now - windowMs cfg < t) timestamps.
Proof.
  intros HW Hlook. rewrite Forall_forall.
  assert (∀ ts, requests !! key' ≫= swept (now - windowMs cfg) = Some ts →
                ts ≠ [] ∧ ∀ t, t ∈ ts → now - windowMs cfg < t) as Hswept.
  { intros ts Hts. destruct (requests !! key') as [old|]; [|done].
    apply swept_Some in Hts as [-> Hne]. split; [done|].
    intros t Ht. by apply elem_of_live in Ht as [_ ?]. }
  destruct (decide (key' = key)) as [->|Hne].
  - pose proof (rateLimit_self cfg requests key now) as Hself.
    unfold rateLimit in *. destruct (maxRequests cfg <=? _); simpl in *.
    + rewrite lookup_clean in Hlook. by apply Hswept.
    + rewrite lookup_insert_eq in Hlook. injection Hlook as <-.
      split; [by destruct (default [] _)|].
      intros t [Ht| ->%list_elem_of_singleton]%elem_of_app; [|lia].
      fold (window (clean (now - windowMs cfg) requests) key) in Ht.
      rewrite window_clean in Ht. by apply elem_of_live in Ht as [_ ?].
  - rewrite rateLimit_other_lookup in Hlook by done. by apply Hswept.
Qed.

Lemma window_invariant_witness :
  0 < windowMs default_config
  ∧ snd (rateLimit default_config ∅ "10.0.0.1" 5) !! "10.0.0.1" = Some [5]
  ∧ [5] ≠ [] ∧ Forall (λ t, 5 - windowMs default_config < t) [5].
Proof.
  split; [reflexivity|]. split; [by vm_compute|].
  apply (window_invariant default_config ∅ "10.0.0.1" 5 "10.0.0.1" [5]);
    [reflexivity | by vm_compute].
Defined.

(** *** Frame of one call *)

(** C6, counterexample: with [maxRequests = 1] and [windowMs = 10], after
    requests of A at 95 and of B at 100, a request of B at 107 is denied, and
    yet it removes the entry of A: the window of another key changes and a
    denied call mutates the map. *)
Lemma denied_call_sweeps_other_key :
  let cfg := {| maxRequests := 1; windowMs := 10 |} in
  let before := snd (run cfg ∅ [("A", 95); ("B", 100)]) in
  fst (rateLimit cfg before "B" 107) = too_many
  ∧ before !! "A" = Some [95]
  ∧ snd (rateLimit cfg before "B" 107) !! "A" = None
  ∧ snd (rateLimit cfg before "B" 107) ≠ before.
Proof.
  repeat split; by vm_compute.
Qed.

(** C6, as amended: a call for [key] at time [now] changes the entry of
    every other key only by the sweep (the timestamps not newer than
    [now - windowMs] are dropped, and the key with them when none is left);
    a denied call does nothing but this sweep, for all keys including its
    own, so no timestamp is added; and a denied call leaves the map as it
    was when no entry held an expired timestamp or an empty sequence. *)
Theorem sweep_is_the_only_side_effect cfg requests key now :
  (∀ key', key' ≠ key →
     snd (rateLimit cfg requests key now) !! key'
     = requests !! key' ≫= swept (now - windowMs cfg))
  ∧ (fst (rateLimit cfg requests key now) ≠ Next →
     ∀ key', snd (rateLimit cfg requests key now) !! key'
             = requests !! key' ≫= swept (now - windowMs cfg))
  ∧ (fst (rateLimit cfg requests key now) ≠ Next →
     (∀ key' timestamps, requests !! key' = Some timestamps →
        timestamps ≠ [] ∧ Forall (λ t, now - windowMs cfg < t) timestamps) →
     snd (rateLimit cfg requests key now) = requests).
Proof.
  assert (fst (rateLimit cfg requests key now) ≠ Next →
          snd (rateLimit cfg requests key now)
          = clean (now - windowMs cfg) requests) as Hdenied.
  { unfold rateLimit. by destruct (maxRequests cfg <=? _). }
  split; [|split].
  - intros key' Hne. by apply rateLimit_other_lookup.
  - intros Hr key'. rewrite Hdenied by done. apply lookup_clean.
  - intros Hr Hfresh. rewrite Hdenied by done. apply map_eq. intros key'.
    rewrite lookup_clean. destruct (requests !! key') as [ts|] eqn:E; [|done].
    destruct (Hfresh _ _ E) as [Hne Hall]. simpl.
    apply swept_id; [done|]. by apply Forall_forall.
Qed.

Lemma sweep_is_the_only_side_effect_witness :
  fst (rateLimit {| maxRequests := 1; windowMs := 10 |} {["B" := [100]]} "B" 103)
  ≠ Next
  ∧ snd (rateLimit {| maxRequests := 1; windowMs := 10 |} {["B" := [100]]} "B" 103)
    = {["B" := [100]]}.
Proof.
  split; [by vm_compute|].
  apply (proj2 (proj2 (sweep_is_the_only_side_effect
                         {| maxRequests := 1; windowMs := 10 |}
                         {["B" := [100]]} "B" 103)));
    [by vm_compute|].
  intros key' timestamps [_ <-]%lookup_singleton_Some.
  split; [done|]. constructor; [by vm_compute|constructor].
Defined.

(** *** Keys do not interfere *)

(** Along a chronological trace, the responses given to one key are those
    of that key run in isolation, whatever the other keys do.  The window
    kept in the map and the window of the isolated run may differ, but only
    in timestamps that are expired for every later request. *)
Lemma run_projection cfg key events :
  ∀ requests last timestamps,
    chronological last events →
    (∀ windowStart, last - windowMs cfg <= windowStart →
       live windowStart (window requests key) = live windowStart timestamps) →
    responses_of key (fst (run cfg requests events))
    = fst (key_run cfg timestamps (events_of key events)).
Proof.
  induction events as [|[k now] events IH]; intros requests last l Hchr Hinv;
    [done|].
  destruct Hchr as [Hle Hchr]. unfold events_of, responses_of. simpl.
  pose proof (rateLimit_self cfg requests k now) as Hself.
  pose proof (rateLimit_other cfg requests k now key) as Hother.
  destruct (rateLimit cfg requests k now) as [r requests'] eqn:Hstep.
  simpl in Hself, Hother.
  destruct (run cfg requests' events) as [rs requests''] eqn:Hrun. simpl.
  case_bool_decide as Hk; simpl.
  - subst k.
    rewrite (key_step_live cfg (window requests key) l) in Hself
      by (apply Hinv; lia).
    destruct (key_step cfg l now) as [r' l'] eqn:Hkey.
    injection Hself as <- <-.
    specialize (IH requests' now (window requests' key) Hchr (λ _ _, eq_refl)).
    rewrite Hrun in IH. unfold events_of, responses_of in IH. simpl in IH.
    destruct (key_run cfg (window requests' key) _) as [rs' l''].
    simpl in *. by f_equal.
  - specialize (IH requests' now l Hchr). rewrite Hrun in IH. apply IH.
    intros windowStart Hws. rewrite Hother by done.
    rewrite live_live by done. apply Hinv. lia.
Qed.

Lemma events_of_without key other events :
  key ≠ other →
  events_of key (List.filter (λ e, negb (bool_decide (fst e = other))) events)
  = events_of key events.
Proof.
  intros Hne. unfold events_of. f_equal.
  induction events as [|[k now] events IH]; [done|]. simpl.
  repeat (case_bool_decide; simpl in * ); subst; try congruence.
Qed.

(** C7, counterexample: with [maxRequests = 1] and [windowMs = 10], let B
    ask at 100, then A at 200, then B again with a clock reading of 105 (the
    clock, [Date.now()], has been set back).  The call of A sweeps the
    timestamp 100 of B out of the map, so the second request of B is let
    through; with A silent the same two requests of B get [next] and then
    429.  The two interleavings differ only in the request of A. *)
Lemma clock_set_back_lets_a_key_interfere :
  let cfg := {| maxRequests := 1; windowMs := 10 |} in
  let with_A := [("B", 100); ("A", 200); ("B", 105)] in
  let without_A := [("B", 100); ("B", 105)] in
  "A" ≠ "B"
  ∧ List.filter (λ e, negb (bool_decide (fst e = "A"))) with_A = without_A
  ∧ responses_of "B" (fst (run cfg ∅ with_A)) = [Next; Next]
  ∧ responses_of "B" (fst (run cfg ∅ without_A)) = [Next; too_many]
  ∧ responses_of "B" (fst (run cfg ∅ with_A))
    ≠ responses_of "B" (fst (run cfg ∅ without_A)).
Proof.
  split_and!; by vm_compute.
Qed.

(** C7, as amended: take two sequences of requests to the same limiter,
    each with clock readings that never go backwards, started in the same
    state, that differ only in the requests made under key [A] (they agree
    once the requests of [A] are taken out).  Then every request made under
    any other key [B] gets the same response in both, be [A] silent in one
    and saturated in the other. *)
Theorem keys_do_not_interfere cfg requests (A B : string)
    (events1 events2 : list (string * Z)) (start1 start2 : Z) :
  A ≠ B →
  chronological start1 events1 →
  chronological start2 events2 →
  List.filter (λ e, negb (bool_decide (fst e = A))) events1
  = List.filter (λ e, negb (bool_decide (fst e = A))) events2 →
  responses_of B (fst (run cfg requests events1))
  = responses_of B (fst (run cfg requests events2)).
Proof.
  intros Hne Hchr1 Hchr2 Hsame.
  rewrite (run_projection cfg B events1 requests start1 (window requests B))
    by done.
  rewrite (run_projection cfg B events2 requests start2 (window requests B))
    by done.
  rewrite <- (events_of_without B A events1) by done.
  rewrite <- (events_of_without B A events2) by done.
  by rewrite Hsame.
Qed.

Lemma keys_do_not_interfere_witness :
  let cfg := {| maxRequests := 2; windowMs := 1000 |} in
  let saturated := [("A", 0); ("B", 1); ("A", 2); ("A", 3); ("B", 4); ("A", 5);
                    ("B", 6); ("B", 1500)] in
  let silent := [("B", 1); ("B", 4); ("B", 6); ("B", 1500)] in
  "A" ≠ "B"
  ∧ chronological 0 saturated
  ∧ chronological 0 silent
  ∧ List.filter (λ e, negb (bool_decide (fst e = "A"))) saturated = silent
  ∧ responses_of "B" (fst (run cfg ∅ saturated)) = [Next; Next; too_many; Next]
  ∧ responses_of "B" (fst (run cfg ∅ saturated))
    = responses_of "B" (fst (run cfg ∅ silent)).
Proof.
  split; [done|]. split; [simpl; lia|]. split; [simpl; lia|].
  split; [by vm_compute|]. split; [by vm_compute|].
  apply (keys_do_not_interfere _ ∅ "A" "B" _ _ 0 0);
    [done | simpl; lia | simpl; lia | by vm_compute].
Defined.

(** *** A burst inside one window *)

(** Requests of one key in a row. *)
Lemma run_single_key cfg key times :
  ∀ requests,
    (snd <$> fst (run cfg requests (pair key <$> times)),
     window (snd (run cfg requests (pair key <$> times))) key)
    = key_run cfg (window requests key) times.
Proof.
  induction times as [|now times IH]; intros requests; [done|].
  rewrite fmap_cons. cbn [run key_run].
  pose proof (rateLimit_self cfg requests key now) as Hself.
  destruct (rateLimit cfg requests key now) as [r requests'].
  simpl in Hself. rewrite <- Hself.
  specialize (IH requests').
  destruct (run cfg requests' (pair key <$> times)) as [rs requests''].
  simpl in *. rewrite <- IH. done.
Qed.

Lemma key_run_app cfg l times1 times2 :
  key_run cfg l (times1 ++ times2)
  = (fst (key_run cfg l times1)
       ++ fst (key_run cfg (snd (key_run cfg l times1)) times2),
     snd (key_run cfg (snd (key_run cfg l times1)) times2)).
Proof.
  revert l. induction times1 as [|now times1 IH]; intros l; simpl.
  - by destruct (key_run cfg l times2).
  - destruct (key_step cfg l now) as [r l']. rewrite IH.
    by destruct (key_run cfg l' times1).
Qed.

Lemma live_in_burst base W l now :
  fits base W l → base <= now < base + W →
  live (now - W) l = live (base - W) l.
Proof.
  intros Hfits Hnow. unfold live. apply filter_ext_in. intros t Ht.
  apply list_elem_of_In, Hfits in Ht.
  destruct (Z.ltb_spec (now - W) t), (Z.ltb_spec (base - W) t); lia.
Qed.

(** While the window has room, every request of the burst is let through
    and recorded. *)
Lemma key_run_burst cfg base times :
  ∀ l,
    fits base (windowMs cfg) l →
    Forall (λ t, base <= t < base + windowMs cfg) times →
    Z.of_nat (length (live (base - windowMs cfg) l) + length times)
      <= maxRequests cfg →
    fst (key_run cfg l times) = replicate (length times) Next
    ∧ live (base - windowMs cfg) (snd (key_run cfg l times))
      = live (base - windowMs cfg) l ++ times
    ∧ fits base (windowMs cfg) (snd (key_run cfg l times)).
Proof.
  induction times as [|now times IH]; intros l Hfits Hall Hroom; simpl.
  { by rewrite app_nil_r. }
  apply Forall_cons in Hall as [Hnow Hall].
  unfold key_step. rewrite (live_in_burst base) by done.
  set (kept := live (base - windowMs cfg) l) in *.
  assert ((maxRequests cfg <=? Z.of_nat (length kept)) = false) as ->.
  { apply Z.leb_gt. simpl in Hroom. lia. }
  assert (fits base (windowMs cfg) (kept ++ [now])) as Hfits'.
  { intros t [Ht| ->%list_elem_of_singleton]%elem_of_app; [|by right].
    apply elem_of_live in Ht as [Ht ?]. destruct (Hfits t Ht); [lia|by right]. }
  assert (live (base - windowMs cfg) (kept ++ [now]) = kept ++ [now]) as Hlive.
  { rewrite live_app. unfold kept at 1. rewrite live_live by done.
    f_equal. apply live_all.
    intros t ->%list_elem_of_singleton. lia. }
  destruct (IH (kept ++ [now]) Hfits' Hall) as (Hrs & Hl & Hf).
  { rewrite Hlive, length_app. simpl in *. lia. }
  destruct (key_run cfg (kept ++ [now]) times) as [rs l']. simpl in *.
  rewrite Hrs, Hl, Hlive, <- app_assoc. done.
Qed.

(** C1, counterexample: with [maxRequests = 0] the burst is a single
    request, which is denied; a request of the same key made more than the
    window later is denied as well. *)
Lemma zero_limit_never_allows :
  let cfg := {| maxRequests := Z.of_nat 0; windowMs := 10 |} in
  fst (run cfg ∅ [("10.0.0.1", 0)]) = [("10.0.0.1", too_many)]
  ∧ 0 + 10 < 11
  ∧ fst (rateLimit cfg (snd (run cfg ∅ [("10.0.0.1", 0)])) "10.0.0.1" 11)
    ≠ Next.
Proof. repeat split; by vm_compute. Qed.

(** C1, as amended: let [maxRequests = N] and [windowMs = W], and let [key]
    hold no unexpired timestamp when a burst of [N + 1] of its requests
    starts, all the timestamps of the burst lying in one window
    [base, base + W).  Then the first [N] requests are let through ([next]
    is called) and the last one is answered 429 with
    [{"error": "Too many requests"}]; and, provided [N >= 1], a further
    request of [key] made more than [W] after the burst is let through. *)
Theorem burst_then_recover (N : nat) (W : Z) key requests (burst : list Z)
    (base : Z) :
  length burst = S N →
  Forall (λ t, base <= t < base + W) burst →
  Forall (λ t, t <= base - W) (window requests key) →
  snd <$> fst (run {| maxRequests := Z.of_nat N; windowMs := W |} requests
                   (pair key <$> burst))
  = replicate N Next ++ [Json 429 [("error", "Too many requests")]]
  ∧ ((1 <= N)%nat →
     ∀ later, Forall (λ t, t + W < later) burst →
       fst (rateLimit {| maxRequests := Z.of_nat N; windowMs := W |}
              (snd (run {| maxRequests := Z.of_nat N; windowMs := W |}
                        requests (pair key <$> burst)))
              key later)
       = Next).
Proof.
  set (cfg := {| maxRequests := Z.of_nat N; windowMs := W |}).
  intros Hlen Hburst Hfresh.
  destruct burst as [|final first _] using rev_ind; [done|].
  rewrite length_app in Hlen. simpl in Hlen.
  assert (length first = N) as HN by lia.
  apply Forall_app in Hburst as [Hfirst Hfinal].
  rewrite Forall_singleton in Hfinal.
  pose proof (run_single_key cfg key (first ++ [final]) requests) as Hrun.
  rewrite key_run_app in Hrun.
  assert (fits base W (window requests key)) as Hfits.
  { intros t Ht. left. by eapply Forall_forall in Hfresh. }
  assert (live (base - W) (window requests key) = []) as Hnone.
  { apply live_none. by apply Forall_forall. }
  destruct (key_run_burst cfg base first (window requests key))
    as (Hrs & Hl & Hf); [done..| |].
  { simpl. rewrite Hnone. simpl. lia. }
  simpl in Hl, Hf. rewrite Hnone in Hl. simpl in Hl.
  destruct (key_run cfg (window requests key) first) as [rs l]. simpl in *.
  unfold key_step in Hrun. simpl in Hrun.
  rewrite (live_in_burst base) in Hrun by done.
  rewrite Hl in Hrun.
  assert ((Z.of_nat N <=? Z.of_nat (length first)) = true) as Hfull.
  { apply Z.leb_le. lia. }
  rewrite Hfull in Hrun. simpl in Hrun.
  injection Hrun as Hresp Hwin. split.
  - rewrite Hresp, Hrs, HN. done.
  - intros HN1 later Hlater.
    pose proof (rateLimit_self cfg
                  (snd (run cfg requests (pair key <$> first ++ [final])))
                  key later) as Hself.
    rewrite Hwin in Hself. unfold key_step in Hself.
    rewrite live_none in Hself.
    + assert ((maxRequests cfg <=? Z.of_nat (length (@nil Z))) = false) as Hz.
      { apply Z.leb_gt. simpl. lia. }
      rewrite Hz in Hself. by injection Hself as -> _.
    + intros t Ht. simpl.
      apply Forall_app in Hlater as [Hlater _].
      eapply Forall_forall in Hlater; [|done]. lia.
Qed.

Lemma burst_then_recover_witness :
  let cfg := {| maxRequests := Z.of_nat 2; windowMs := 1000 |} in
  let burst := pair "127.0.0.1" <$> [0; 1; 2] in
  length [0; 1; 2] = 3%nat
  ∧ Forall (λ t, 0 <= t < 0 + 1000) [0; 1; 2]
  ∧ Forall (λ t, t <= 0 - 1000) (window ∅ "127.0.0.1")
  ∧ Forall (λ t, t + 1000 < 2003) [0; 1; 2]
  ∧ snd <$> fst (run cfg ∅ burst)
    = [Next; Next; Json 429 [("error", "Too many requests")]]
  ∧ fst (rateLimit cfg (snd (run cfg ∅ burst)) "127.0.0.1" 2003) = Next.
Proof.
  assert (Forall (λ t, 0 <= t < 0 + 1000) [0; 1; 2]) as Hin
    by (repeat constructor; lia).
  assert (Forall (λ t, t + 1000 < 2003) [0; 1; 2]) as Hlater
    by (repeat constructor; lia).
  assert (Forall (λ t, t <= 0 - 1000) (window ∅ "127.0.0.1")) as Hfresh
    by constructor.
  destruct (burst_then_recover 2 1000 "127.0.0.1" ∅ [0; 1; 2] 0) as [H1 H2];
    [reflexivity | exact Hin | exact Hfresh |].
  split; [reflexivity|]. split; [exact Hin|]. split; [exact Hfresh|].
  split; [exact Hlater|]. split; [exact H1|].
  apply H2; [lia | exact Hlater].
Defined.

End RateLimitFacts.

(** ** Tokens *)

Section TokenFacts.
Import JS Auth.
Context `{codec : Jwt.Codec}.

Implicit Types (e : env) (u : user) (token : string).

(** [verifyToken] has one failure value. *)
Lemma verifyToken_throws e now token err :
  verifyToken e now token = Throw err → err = Error "Invalid token".
Proof.
  unfold verifyToken. destruct (Jwt.verify _ _ _); congruence.
Qed.

(** C2: for every user [u] and every issuance time [issued] (a reading of
    [Date.now()]), the token that [generateToken] makes for [u] is accepted
    by [verifyToken] as long as it has not expired, and the decoded claim
    has [userId] equal to the id of [u], [iat] equal to the issuance time
    (in whole seconds, as tokens carry it) and [exp] exactly seven days
    after [iat]. *)
Theorem verify_generated_token e u (issued now : Z) :
  now / 1000 < issued / 1000 + 7 * 24 * 60 * 60 →
  ∃ claim issuedAt expiresAt,
    verifyToken e now (generateToken e issued u) = Return claim
    ∧ Jwt.userId claim = JStr (_id u)
    ∧ Jwt.iat claim = Some issuedAt
    ∧ Jwt.exp claim = Some expiresAt
    ∧ issuedAt = issued / 1000
    ∧ expiresAt = issuedAt + 7 * 24 * 60 * 60.
Proof.
  intros Hnow.
  eexists _, (issued / 1000), (issued / 1000 + 7 * 24 * 60 * 60).
  unfold verifyToken, generateToken, Jwt.verify, Jwt.sign.
  rewrite Jwt.parse_compact. simpl.
  rewrite String.eqb_refl. simpl.
  change (Jwt.ms_7d / 1000) with (7 * 24 * 60 * 60).
  destruct (Z.leb_spec (issued / 1000 + 7 * 24 * 60 * 60) (now / 1000)) as [?|_];
    [lia|].
  repeat split; reflexivity.
Qed.

(** C3: [verifyToken] fails on a token that does not parse, on a token
    whose signature is not the one the secret gives, and on a token whose
    [exp] is not after the verification clock; in each case it throws the
    same [Error('Invalid token')], which does not tell the cases apart: it
    is the only value [verifyToken] ever throws. *)
Theorem verifyToken_rejects_uniformly e now token :
  Jwt.parse token = None
  ∨ (∃ j, Jwt.parse token = Some j
          ∧ Jwt.signature j ≠ Jwt.hs256 (secret e) (Jwt.alg j) (Jwt.claims j))
  ∨ (∃ j expiresAt, Jwt.parse token = Some j
          ∧ Jwt.exp (Jwt.claims j) = Some expiresAt
          ∧ expiresAt <= now / 1000) →
  verifyToken e now token = Throw (Error "Invalid token")
  ∧ ∀ e' now' token' err,
      verifyToken e' now' token' = Throw err → err = Error "Invalid token".
Proof.
  intros Hcase. split; [|by eauto using verifyToken_throws].
  revert Hcase. unfold verifyToken, Jwt.verify.
  intros [Hparse|[(j & Hparse & Hsig)|(j & expiresAt & Hparse & Hexp & Hle)]];
    rewrite Hparse; [done| |].
  - destruct (String.eqb_spec (Jwt.signature j)
                (Jwt.hs256 (secret e) (Jwt.alg j) (Jwt.claims j))); done.
  - destruct (negb (Jwt.signature j =? _)%string); [done|].
    rewrite Hexp. by destruct (Z.leb_spec expiresAt (now / 1000)); [|lia].
Qed.

End TokenFacts.

(** The witnesses run the token functions on the bit-string codec. *)
#[local] Existing Instance BitCodec.codec.

Lemma verify_generated_token_witness :
  let e := {| Auth.JWT_SECRET := None |} in
  let u := {| Auth._id := "456"; Auth.username := "johndoe" |} in
  1700000005000 / 1000 < 1700000000123 / 1000 + 7 * 24 * 60 * 60
  ∧ ∃ claim issuedAt expiresAt,
      Auth.verifyToken e 1700000005000 (Auth.generateToken e 1700000000123 u)
      = JS.Return claim
      ∧ Jwt.userId claim = JS.JStr "456"
      ∧ Jwt.iat claim = Some issuedAt
      ∧ Jwt.exp claim = Some expiresAt
      ∧ issuedAt = 1700000000123 / 1000
      ∧ expiresAt = issuedAt + 7 * 24 * 60 * 60.
Proof.
  split; [reflexivity|].
  apply (verify_generated_token (codec := BitCodec.codec)
           {| Auth.JWT_SECRET := None |}
           {| Auth._id := "456"; Auth.username := "johndoe" |}
           1700000000123 1700000005000).
  reflexivity.
Defined.

Lemma verifyToken_rejects_uniformly_witness :
  let e := {| Auth.JWT_SECRET := None |} in
  Jwt.parse "invalid-token" = None
  ∧ Auth.verifyToken e 1700000005000 "invalid-token"
    = JS.Throw (JS.Error "Invalid token").
Proof.
  split; [reflexivity|].
  apply (verifyToken_rejects_uniformly (codec := BitCodec.codec)
           {| Auth.JWT_SECRET := None |} 1700000005000 "invalid-token").
  left. reflexivity.
Defined.

(** ** The Authorization header *)

Section HeaderFacts.
Import JS Auth.

Lemma all_white_app s1 s2 :
  all_white (s1 +:+ s2) = all_white s1 && all_white s2.
Proof.
  induction s1 as [|c s1 IH]; simpl; [done|].
  by rewrite IH, andb_assoc.
Qed.

Lemma ends_white_cons c s :
  ends_white (String c s)
  = if (s =? "")%string then is_white_space c else ends_white s.
Proof. by destruct s. Qed.

Lemma eqb_empty s : (s =? "")%string = true ↔ s = "".
Proof. by destruct s. Qed.

Lemma startsWith_inv p : ∀ s, startsWith s p = true → ∃ rest, s = p +:+ rest.
Proof.
  induction p as [|a p IH]; intros s Hs; [by exists s|].
  destruct s as [|b s]; [done|]. simpl in Hs.
  apply andb_true_iff in Hs as [->%Ascii.eqb_eq Hs].
  destruct (IH s Hs) as [rest ->]. by exists rest.
Qed.

Lemma trimStart_split s :
  ∃ before, s = before +:+ trimStart s
            ∧ all_white before = true
            ∧ starts_white (trimStart s) = false.
Proof.
  induction s as [|c s (before & Hs & Hw & Hst)]; [by exists ""|]. simpl.
  destruct (is_white_space c) eqn:Hc.
  - exists (String c before).
    split; [change (String c s = String c (before +:+ trimStart s)); by f_equal|].
    split; [simpl; by rewrite Hc|done].
  - exists "". simpl. by rewrite Hc.
Qed.

Lemma trimEnd_empty s : trimEnd s = "" ↔ all_white s = true.
Proof.
  induction s as [|c s IH]; simpl; [done|].
  destruct (is_white_space c); simpl; [|done].
  rewrite <- IH. destruct (trimEnd s); simpl; split; done.
Qed.

Lemma trimEnd_split s :
  ∃ after, s = trimEnd s +:+ after
           ∧ all_white after = true
           ∧ ends_white (trimEnd s) = false.
Proof.
  induction s as [|c s (after & Hs & Hw & Hend)]; [by exists ""|].
  cbn [trimEnd].
  destruct (is_white_space c && (trimEnd s =? "")%string) eqn:Hc.
  - apply andb_true_iff in Hc as [Hc He%eqb_empty].
    exists (String c s). split; [done|]. split; [|done].
    simpl. rewrite Hc. by apply trimEnd_empty.
  - exists after.
    split; [change (String c s = String c (trimEnd s +:+ after)); by f_equal|].
    split; [done|].
    rewrite ends_white_cons.
    destruct (trimEnd s =? "")%string; [|done].
    by rewrite andb_true_r in Hc.
Qed.

Lemma trimEnd_starts s :
  starts_white s = false → starts_white (trimEnd s) = false.
Proof.
  destruct s as [|c s]; simpl; [done|]. intros Hc. rewrite Hc. simpl. done.
Qed.

(** [trim] strips white space from both ends, and nothing else. *)
Lemma trim_split s :
  ∃ before after,
    s = before +:+ trim s +:+ after
    ∧ all_white before = true ∧ all_white after = true
    ∧ starts_white (trim s) = false ∧ ends_white (trim s) = false.
Proof.
  destruct (trimStart_split s) as (before & Hs & Hb & Hst).
  destruct (trimEnd_split (trimStart s)) as (after & Ht & Ha & Hend).
  exists before, after. unfold trim.
  rewrite <- Ht. repeat split; auto using trimEnd_starts.
Qed.

Lemma trim_empty s : trim s = "" ↔ all_white s = true.
Proof.
  unfold trim. rewrite trimEnd_empty.
  destruct (trimStart_split s) as (before & Hs & Hb & _).
  rewrite Hs at 2. rewrite all_white_app, Hb. done.
Qed.

Lemma extractToken_bearer rest :
  extractToken (Some ("Bearer " +:+ rest)) = Some (trim rest).
Proof. reflexivity. Qed.

(** C4, counterexample: for the prefix followed by white space only,
    [extractToken] does not return [null]; it returns the empty string. *)
Lemma whitespace_only_bearer_yields_empty_string :
  all_white "   " = true
  ∧ extractToken (Some ("Bearer " +:+ "   ")) = Some ""
  ∧ extractToken (Some ("Bearer " +:+ "   ")) ≠ None.
Proof. by vm_compute. Qed.

(** C4, as amended: [extractToken] returns [null] exactly when the header
    is missing or does not start with the case-sensitive prefix
    ["Bearer "]; otherwise it returns what follows the prefix with the
    white space at both ends removed.  That string is a non-empty token
    unless what follows the prefix is white space only, in which case it is
    the empty string, not [null].  ["Bearer abc123"] gives ["abc123"],
    ["Bearer   padded   "] gives ["padded"]; [""], ["Basic xyz"] and
    ["Bearer"] give [null]. *)
Theorem extractToken_shape :
  (∀ h, extractToken h = None ↔ ∀ rest, h ≠ Some ("Bearer " +:+ rest))
  ∧ (∀ rest, extractToken (Some ("Bearer " +:+ rest)) = Some (trim rest))
  ∧ (∀ rest, ∃ before after,
       rest = before +:+ trim rest +:+ after
       ∧ all_white before = true ∧ all_white after = true
       ∧ starts_white (trim rest) = false ∧ ends_white (trim rest) = false)
  ∧ (∀ rest, trim rest = "" ↔ all_white rest = true)
  ∧ extractToken (Some "Bearer abc123") = Some "abc123"
  ∧ extractToken (Some "Bearer   padded   ") = Some "padded"
  ∧ extractToken (Some "") = None
  ∧ extractToken (Some "Basic xyz") = None
  ∧ extractToken (Some "Bearer") = None
  ∧ extractToken (Some "bearer abc123") = None.
Proof.
  split; [|split; [|split; [|split]]];
    [|exact extractToken_bearer|exact trim_split|exact trim_empty
     |by vm_compute].
  intros h. split.
  - intros Hnone rest ->. by rewrite extractToken_bearer in Hnone.
  - intros Hshape. destruct h as [s|]; [|done]. unfold extractToken.
    destruct (s =? "")%string; [done|].
    destruct (startsWith s "Bearer ") eqn:Hs; [|done].
    apply startsWith_inv in Hs as [rest ->]. by destruct (Hshape rest).
Qed.

(** C10: when the Authorization header is the prefix ["Bearer "] followed
    by white space only, [authenticate] answers 401 with
    [{"error": "Access token required"}], the answer for a missing
    credential: the extracted token is the empty string, which [!token]
    takes for absent, and [verifyToken] is not called. *)
Theorem whitespace_only_bearer_is_missing `{Jwt.Codec} (e : env) (now : Z)
    (spaces : string) :
  all_white spaces = true →
  extractToken (Some ("Bearer " +:+ spaces)) = Some ""
  ∧ authenticate e now (Some ("Bearer " +:+ spaces))
    = (None, Json 401 [("error", "Access token required")]).
Proof.
  intros Hw. apply trim_empty in Hw. unfold authenticate.
  rewrite extractToken_bearer, Hw. done.
Qed.

Lemma whitespace_only_bearer_is_missing_witness :
  all_white "   " = true
  ∧ extractToken (Some ("Bearer " +:+ "   ")) = Some ""
  ∧ authenticate {| JWT_SECRET := None |} 1700000005000
      (Some ("Bearer " +:+ "   "))
    = (None, Json 401 [("error", "Access token required")]).
Proof.
  split; [reflexivity|].
  apply (whitespace_only_bearer_is_missing {| JWT_SECRET := None |}
           1700000005000 "   ").
  reflexivity.
Defined.

End HeaderFacts.

(** ** Role check *)

Section RoleFacts.
Import JS Auth.

Lemma requireRole_without_user role :
  requireRole role None = Json 403 [("error", "Role information not found")].
Proof. reflexivity. Qed.

(** C8, counterexample: a claim whose [role] attribute is there but is the
    empty string is answered "Role information not found", not
    "Insufficient permissions", when another role is required; and it is
    not let through when the required role is that same empty string. *)
Lemma empty_role_is_reported_missing :
  let claim := {| Jwt.userId := JStr "1"; Jwt.username := JStr "ann";
                  Jwt.role := JStr ""; Jwt.iat := Some 0; Jwt.exp := Some 604800 |} in
  Jwt.role claim ≠ JUndefined
  ∧ Jwt.role claim ≠ JStr "admin"
  ∧ requireRole (JStr "admin") (Some claim)
    = Json 403 [("error", "Role information not found")]
  ∧ Jwt.role claim = JStr ""
  ∧ requireRole (JStr "") (Some claim) ≠ Next.
Proof. repeat split; by vm_compute. Qed.

(** C8, as amended: for every decoded claim and every required role,
    [requireRole] answers 403 "Role information not found" when the claim
    has no [role] attribute or a falsy one (empty string, [null], [0],
    [false]); it answers 403 "Insufficient permissions" when the role is
    truthy and differs from the required role; and it calls [next] exactly
    when the role is truthy and equal to the required role. *)
Theorem requireRole_decision (role : jsval) (claim : Jwt.payload) :
  (Jwt.role claim = JUndefined →
     requireRole role (Some claim)
     = Json 403 [("error", "Role information not found")])
  ∧ (truthy (Jwt.role claim) = false →
     requireRole role (Some claim)
     = Json 403 [("error", "Role information not found")])
  ∧ (truthy (Jwt.role claim) = true → Jwt.role claim ≠ role →
     requireRole role (Some claim)
     = Json 403 [("error", "Insufficient permissions")])
  ∧ (requireRole role (Some claim) = Next
     ↔ truthy (Jwt.role claim) = true ∧ Jwt.role claim = role).
Proof.
  unfold requireRole, user_role, strict_eq. simpl.
  generalize (Jwt.role claim). intros r.
  destruct (truthy r) eqn:Ht; simpl.
  - case_bool_decide as Heq; simpl.
    + repeat split; try done. by intros ->.
    + repeat split; try done; [by intros ->|by intros [_ ?]].
  - repeat split; try done. by intros [? _].
Qed.

Lemma requireRole_decision_witness :
  let admin := {| Jwt.userId := JStr "1"; Jwt.username := JStr "ann";
                  Jwt.role := JStr "admin"; Jwt.iat := Some 0;
                  Jwt.exp := Some 604800 |} in
  requireRole (JStr "admin") (Some admin) = Next
  ∧ requireRole (JStr "editor") (Some admin)
    = Json 403 [("error", "Insufficient permissions")].
Proof.
  intros admin. split.
  - by apply (proj2 (proj2 (proj2 (requireRole_decision (JStr "admin") admin)))).
  - by apply (proj1 (proj2 (proj2 (requireRole_decision (JStr "editor") admin)))).
Defined.

End RoleFacts.

(** ** Timing monitor *)

Section MonitorFacts.
Import Perf.

Lemma elapsed_ms_nonneg (endTime start : Z) :
  start <= endTime → (0 <= elapsed_ms endTime start)%Q.
Proof. intros Hle. unfold elapsed_ms, Qle. simpl. lia. Qed.

Lemma endTiming_running m id data now metric :
  metrics m !! id = Some metric →
  endTiming m id data now
  = (Some (elapsed_ms now (startTime metric)),
     {| metrics := delete id (metrics m);
        log := log m ++ [performance
                           (if Qle_bool (elapsed_ms now (startTime metric)) 1000
                            then "debug" else "warn")
                           id (elapsed_ms now (startTime metric)) data] |}).
Proof. unfold endTiming. by intros ->. Qed.

Lemma endTiming_unknown m id data now :
  metrics m !! id = None →
  endTiming m id data now
  = (None,
     {| metrics := metrics m;
        log := log m ++ [warn ("No timing started for operation: " +:+ id)] |}).
Proof. unfold endTiming. by intros ->. Qed.

Lemma elapsed_ms_exact (endTime start : Z) :
  (elapsed_ms endTime start * 1000000 == inject_Z (endTime - start))%Q.
Proof. unfold elapsed_ms, Qeq. simpl. lia. Qed.

Lemma elapsed_ms_within (endTime start : Z) :
  start <= endTime →
  (inject_Z (endTime - start) * (1 - (1 # 2251799813685248))
   <= elapsed_ms endTime start * 1000000)%Q
  ∧ (elapsed_ms endTime start * 1000000
     <= inject_Z (endTime - start) * (1 + (1 # 2251799813685248)))%Q.
Proof.
  intros Hle. rewrite elapsed_ms_exact.
  assert (0 <= inject_Z (endTime - start))%Q as Hpos
    by (unfold Qle; simpl; lia).
  split; lra.
Qed.

(** C9: [endTiming] of an operation that is running (it has an entry in
    [metrics], put there at the clock reading [startTime]) returns the time
    elapsed since then: a number of milliseconds that is not negative, as
    the clock is monotonic, and that taken a million times is the number of
    nanoseconds from [startTime] to the reading [now] of this call, to the
    precision of a double (a factor between [1 - 2^-51] and [1 + 2^-51],
    [2^51] being 2251799813685248); and it removes the entry.  [endTiming]
    of an operation with no recorded start returns [undefined], leaves
    [metrics] as it is and only logs a warning.  So [startTiming(id)]
    followed by two [endTiming(id)] gives the time elapsed between the start
    and the first of them, and then [undefined]. *)
Theorem endTiming_once :
  (∀ m id data now metric,
     metrics m !! id = Some metric → startTime metric <= now →
     ∃ duration,
       fst (endTiming m id data now) = Some duration
       ∧ (0 <= duration)%Q
       ∧ (inject_Z (now - startTime metric) * (1 - (1 # 2251799813685248))
          <= duration * 1000000)%Q
       ∧ (duration * 1000000
          <= inject_Z (now - startTime metric) * (1 + (1 # 2251799813685248)))%Q
       ∧ metrics (snd (endTiming m id data now)) = delete id (metrics m)
       ∧ metrics (snd (endTiming m id data now)) !! id = None)
  ∧ (∀ m id data now,
       metrics m !! id = None →
       endTiming m id data now
       = (None,
          {| metrics := metrics m;
             log := log m
                      ++ [warn ("No timing started for operation: " +:+ id)] |}))
  ∧ (∀ m id data1 data2 t0 t1 t2,
       t0 <= t1 →
       ∃ duration,
         fst (endTiming (startTiming m id t0) id data1 t1) = Some duration
         ∧ (0 <= duration)%Q
         ∧ (inject_Z (t1 - t0) * (1 - (1 # 2251799813685248))
            <= duration * 1000000)%Q
         ∧ (duration * 1000000
            <= inject_Z (t1 - t0) * (1 + (1 # 2251799813685248)))%Q
         ∧ fst (endTiming (snd (endTiming (startTiming m id t0) id data1 t1))
                  id data2 t2)
           = None).
Proof.
  split_and!.
  - intros m id data now metric Hrun Hle.
    exists (elapsed_ms now (startTime metric)).
    rewrite (endTiming_running m id data now metric Hrun). simpl.
    destruct (elapsed_ms_within now (startTime metric) Hle) as [Hlo Hhi].
    split_and!; [done|by apply elapsed_ms_nonneg|done|done|done|].
    apply lookup_delete_eq.
  - exact endTiming_unknown.
  - intros m id data1 data2 t0 t1 t2 Hle.
    exists (elapsed_ms t1 t0).
    rewrite (endTiming_running (startTiming m id t0) id data1 t1
               {| startTime := t0; operationId := id |})
      by apply lookup_insert_eq.
    destruct (elapsed_ms_within t1 t0 Hle) as [Hlo Hhi].
    simpl. split_and!; [done|by apply elapsed_ms_nonneg|done|done|].
    rewrite endTiming_unknown; [done|]. apply lookup_delete_eq.
Qed.

Lemma endTiming_once_witness :
  5 <= 7000005
  ∧ ∃ duration,
      fst (endTiming (startTiming new "op1" 5) "op1" [] 7000005) = Some duration
      ∧ (0 <= duration)%Q
      ∧ (inject_Z (7000005 - 5) * (1 - (1 # 2251799813685248))
         <= duration * 1000000)%Q
      ∧ (duration * 1000000
         <= inject_Z (7000005 - 5) * (1 + (1 # 2251799813685248)))%Q
      ∧ fst (endTiming (snd (endTiming (startTiming new "op1" 5) "op1" [] 7000005))
               "op1" [] 9000000)
        = None.
Proof.
  split; [lia|].
  apply (proj2 (proj2 endTiming_once) new "op1" [] [] 5 7000005 9000000). lia.
Defined.

End MonitorFacts.

(** * Further properties *)

(** ** The rate limiter over whole histories *)

Section RateLimitHistories.
Import RateLimit.

Implicit Types (cfg : config) (requests : gmap string (list Z)).
Implicit Types (key : string) (now windowStart : Z) (timestamps : list Z).

Lemma length_live_le windowStart timestamps :
  (length (live windowStart timestamps) <= length timestamps)%nat.
Proof. apply List.filter_length_le. Qed.

Lemma response_cases cfg requests key now :
  fst (rateLimit cfg requests key now) = Next
  ∨ fst (rateLimit cfg requests key now) = too_many.
Proof. unfold rateLimit. destruct (maxRequests cfg <=? _); auto. Qed.

Lemma run_app cfg requests events1 events2 :
  run cfg requests (events1 ++ events2)
  = (fst (run cfg requests events1)
       ++ fst (run cfg (snd (run cfg requests events1)) events2),
     snd (run cfg (snd (run cfg requests events1)) events2)).
Proof.
  revert requests. induction events1 as [|[k now] events1 IH]; intros requests.
  - simpl. by destruct (run cfg requests events2).
  - simpl. destruct (rateLimit cfg requests k now) as [r requests'].
    rewrite IH. by destruct (run cfg requests' events1).
Qed.

Lemma chronological_weaken last last' events :
  last' <= last → chronological last events → chronological last' events.
Proof. destruct events as [|[k now] events]; simpl; [done|]. intros ? [? ?]. split; [lia|done]. Qed.

Lemma chronological_app last events1 events2 :
  chronological last (events1 ++ events2) →
  chronological last events1 ∧ chronological last events2.
Proof.
  revert last. induction events1 as [|[k now] events1 IH]; intros last; simpl.
  - done.
  - intros [Hle Hchr]. destruct (IH now Hchr) as [H1 H2].
    repeat split; [done..|]. by apply (chronological_weaken now).
Qed.

Lemma ascending_events_of key last events :
  chronological last events → ascending last (events_of key events).
Proof.
  revert last. unfold events_of.
  induction events as [|[k now] events IH]; intros last; simpl; [done|].
  intros [Hle Hchr]. case_bool_decide; simpl.
  - split; [done|]. by apply IH.
  - apply IH. by apply (chronological_weaken now).
Qed.

(** One call keeps two maps with the same live timestamps in step. *)
Lemma rateLimit_same_live cfg since m1 m2 key now :
  same_live (windowMs cfg) since m1 m2 → since <= now →
  fst (rateLimit cfg m1 key now) = fst (rateLimit cfg m2 key now)
  ∧ same_live (windowMs cfg) now
      (snd (rateLimit cfg m1 key now)) (snd (rateLimit cfg m2 key now)).
Proof.
  intros Hsame Hle.
  pose proof (rateLimit_self cfg m1 key now) as H1.
  pose proof (rateLimit_self cfg m2 key now) as H2.
  rewrite (key_step_live cfg (window m1 key) (window m2 key)) in H1
    by (apply Hsame; lia).
  rewrite <- H2 in H1. injection H1 as Hr Hw. split; [done|].
  intros k ws Hws. destruct (decide (k = key)) as [->|Hne].
  - by rewrite Hw.
  - rewrite !rateLimit_other by done. rewrite !live_live by done.
    apply Hsame. lia.
Qed.

Lemma run_same_live cfg events :
  ∀ since m1 m2,
    chronological since events → same_live (windowMs cfg) since m1 m2 →
    fst (run cfg m1 events) = fst (run cfg m2 events).
Proof.
  induction events as [|[k now] events IH]; intros since m1 m2 Hchr Hsame;
    [done|].
  destruct Hchr as [Hle Hchr]. simpl.
  destruct (rateLimit_same_live cfg since m1 m2 k now Hsame Hle) as [Hr Hs].
  destruct (rateLimit cfg m1 k now) as [r1 m1'].
  destruct (rateLimit cfg m2 k now) as [r2 m2']. simpl in *. subst r2.
  specialize (IH now m1' m2' Hchr Hs).
  destruct (run cfg m1' events), (run cfg m2' events). simpl in *. by subst.
Qed.

(** A denied call only sweeps. *)
Lemma denied_same_live cfg requests key now :
  fst (rateLimit cfg requests key now) ≠ Next →
  same_live (windowMs cfg) now (snd (rateLimit cfg requests key now)) requests.
Proof.
  intros Hr k ws Hws.
  assert (snd (rateLimit cfg requests key now)
          = clean (now - windowMs cfg) requests) as ->.
  { revert Hr. unfold rateLimit. by destruct (maxRequests cfg <=? _). }
  rewrite window_clean. by apply live_live.
Qed.

(** X3: A denied request leaves no trace: in a chronological history, every
    other request gets the response it would get had the denied request
    never been made. *)
Theorem denied_request_leaves_no_trace cfg requests before after key now start :
  chronological start (before ++ (key, now) :: after) →
  fst (rateLimit cfg (snd (run cfg requests before)) key now) ≠ Next →
  ∃ rs1 rs2,
    length rs1 = length before
    ∧ fst (run cfg requests (before ++ after)) = rs1 ++ rs2
    ∧ fst (run cfg requests (before ++ (key, now) :: after))
      = rs1 ++ (key, too_many) :: rs2.
Proof.
  intros Hchr Hden.
  exists (fst (run cfg requests before)),
         (fst (run cfg (snd (run cfg requests before)) after)).
  split; [|split].
  - clear. revert requests. induction before as [|[k t] before IH]; intros m; [done|].
    simpl. destruct (rateLimit cfg m k t) as [r m'].
    specialize (IH m'). destruct (run cfg m' before). simpl in *. by f_equal.
  - by rewrite run_app.
  - rewrite run_app. simpl. f_equal.
    apply chronological_app in Hchr as [_ [Hle Hafter]].
    pose proof (denied_same_live cfg _ key now Hden) as Hsame.
    pose proof (run_same_live cfg after now _ _ Hafter Hsame) as Hrun.
    destruct (response_cases cfg (snd (run cfg requests before)) key now)
      as [HN|HT]; [done|].
    destruct (rateLimit cfg (snd (run cfg requests before)) key now) as [r m'].
    simpl in *. subst r.
    destruct (run cfg m' after). simpl in *. by subst.
Qed.

Lemma denied_request_leaves_no_trace_witness :
  let cfg := {| maxRequests := 1; windowMs := 10 |} in
  chronological 0 ([("A", 0)] ++ ("A", 5) :: [("B", 6); ("A", 10)])
  ∧ fst (rateLimit cfg (snd (run cfg ∅ [("A", 0)])) "A" 5) ≠ Next
  ∧ ∃ rs1 rs2,
      length rs1 = length [("A", 0)]
      ∧ fst (run cfg ∅ ([("A", 0)] ++ [("B", 6); ("A", 10)])) = rs1 ++ rs2
      ∧ fst (run cfg ∅ ([("A", 0)] ++ ("A", 5) :: [("B", 6); ("A", 10)]))
        = rs1 ++ ("A", too_many) :: rs2.
Proof.
  split; [simpl; lia|]. split; [by vm_compute|].
  apply (denied_request_leaves_no_trace _ ∅ [("A", 0)] [("B", 6); ("A", 10)]
           "A" 5 0); [simpl; lia | by vm_compute].
Defined.

Lemma within_app W t l1 l2 :
  within W t (l1 ++ l2) = within W t l1 ++ within W t l2.
Proof. unfold within. apply List.filter_app. Qed.

Lemma length_within_le_live W t l :
  (length (within W t l) <= length (live (t - W) l))%nat.
Proof.
  unfold within, live. induction l as [|x l IH]; simpl; [done|].
  destruct (t - W <? x); simpl; [|done].
  destruct (x <=? t); simpl; lia.
Qed.

(** The bound on one key taken in isolation: the stored window and the
    list of admitted readings agree on what is live, and no interval of
    length W holds more than [maxRequests] admitted readings. *)
Lemma key_run_bound cfg times :
  ∀ l adm last,
    ascending last times →
    (∀ ws, last - windowMs cfg <= ws → live ws l = live ws adm) →
    (∀ t, Z.of_nat (length (within (windowMs cfg) t adm)) <= maxRequests cfg) →
    ∀ t, Z.of_nat (length (within (windowMs cfg) t
                             (adm ++ admitted times (fst (key_run cfg l times)))))
         <= maxRequests cfg.
Proof.
  induction times as [|now times IH]; intros l adm last Hasc Hlive Hbound t.
  { simpl. rewrite app_nil_r. apply Hbound. }
  destruct Hasc as [Hle Hasc]. cbn [key_run]. unfold key_step.
  set (kept := live (now - windowMs cfg) l).
  assert (kept = live (now - windowMs cfg) adm) as Hkept
    by (apply Hlive; lia).
  destruct (Z.leb_spec (maxRequests cfg) (Z.of_nat (length kept))) as [Hfull|Hroom].
  - specialize (IH kept adm now Hasc).
    destruct (key_run cfg kept times) as [rs l'] eqn:Hrun. simpl in *.
    apply IH; [|done].
    intros ws Hws. unfold kept. rewrite live_live by done. apply Hlive. lia.
  - specialize (IH (kept ++ [now]) (adm ++ [now]) now Hasc).
    destruct (key_run cfg (kept ++ [now]) times) as [rs l'] eqn:Hrun.
    simpl in *. rewrite (cons_middle now adm), app_assoc.
    apply IH.
    + intros ws Hws. rewrite !live_app. f_equal.
      unfold kept. rewrite live_live by done. apply Hlive. lia.
    + intros u. rewrite within_app, length_app.
      destruct ((u - windowMs cfg <? now) && (now <=? u)) eqn:Hin.
      * unfold within at 2. simpl. rewrite Hin. simpl.
        apply andb_true_iff in Hin as [Hlo%Z.ltb_lt Hhi%Z.leb_le].
        pose proof (length_within_le_live (windowMs cfg) u adm) as H1.
        rewrite <- (live_live (now - windowMs cfg)) in H1 by lia.
        rewrite <- Hkept in H1.
        pose proof (length_live_le (u - windowMs cfg) kept) as H2.
        lia.
      * unfold within at 2. simpl. rewrite Hin. simpl.
        specialize (Hbound u). lia.
Qed.

(** X1: The rate limit itself: along a chronological history served by a fresh
    limiter, the requests of one key that are let through and whose clock
    readings lie in any one interval (t - windowMs, t] number at most
    [maxRequests], whatever the other keys do. *)
Theorem at_most_maxRequests_per_window cfg events key start t :
  0 <= maxRequests cfg →
  chronological start events →
  Z.of_nat (length (within (windowMs cfg) t
                      (admitted (events_of key events)
                         (responses_of key (fst (run cfg ∅ events))))))
  <= maxRequests cfg.
Proof.
  intros Hpos Hchr.
  rewrite (run_projection cfg key events ∅ start []) by done.
  apply (key_run_bound cfg (events_of key events) [] [] start);
    [by apply ascending_events_of|done|done].
Qed.

Lemma at_most_maxRequests_per_window_witness :
  let cfg := {| maxRequests := 2; windowMs := 1000 |} in
  let events := [("A", 0); ("B", 1); ("A", 500); ("A", 900); ("A", 1000);
                 ("A", 1400); ("A", 1500)] in
  0 <= maxRequests cfg
  ∧ chronological 0 events
  ∧ admitted (events_of "A" events) (responses_of "A" (fst (run cfg ∅ events)))
    = [0; 500; 1000; 1500]
  ∧ Z.of_nat (length (within (windowMs cfg) 1400
                        (admitted (events_of "A" events)
                           (responses_of "A" (fst (run cfg ∅ events))))))
    <= maxRequests cfg.
Proof.
  split; [done|]. split; [simpl; lia|]. split; [by vm_compute|].
  apply (at_most_maxRequests_per_window _ _ "A" 0 1400); [done | simpl; lia].
Defined.

(** One call keeps every stored window within the limit. *)
Lemma rateLimit_window_size cfg requests key now :
  0 <= maxRequests cfg →
  (∀ k, Z.of_nat (length (window requests k)) <= maxRequests cfg) →
  ∀ k, Z.of_nat (length (window (snd (rateLimit cfg requests key now)) k))
       <= maxRequests cfg.
Proof.
  intros Hpos Hsize k. destruct (decide (k = key)) as [->|Hne].
  - pose proof (rateLimit_self cfg requests key now) as Hself.
    unfold key_step in Hself.
    pose proof (length_live_le (now - windowMs cfg) (window requests key)).
    destruct (Z.leb_spec (maxRequests cfg)
                (Z.of_nat (length (live (now - windowMs cfg) (window requests key)))));
      injection Hself as _ ->.
    + specialize (Hsize key). lia.
    + rewrite length_app. simpl. lia.
  - rewrite rateLimit_other by done.
    pose proof (length_live_le (now - windowMs cfg) (window requests k)).
    specialize (Hsize k). lia.
Qed.

(** X2: No stored window outgrows the limit: after any history served by a
    fresh limiter, each key holds at most [maxRequests] timestamps. *)
Theorem window_never_outgrows_limit cfg events key :
  0 <= maxRequests cfg →
  Z.of_nat (length (window (snd (run cfg ∅ events)) key)) <= maxRequests cfg.
Proof.
  intros Hpos.
  assert (∀ requests,
            (∀ k, Z.of_nat (length (window requests k)) <= maxRequests cfg) →
            ∀ k, Z.of_nat (length (window (snd (run cfg requests events)) k))
                 <= maxRequests cfg) as Hrun.
  { induction events as [|[k0 now] events IH]; intros requests Hsize k; [done|].
    simpl.
    pose proof (rateLimit_window_size cfg requests k0 now Hpos Hsize) as Hstep.
    destruct (rateLimit cfg requests k0 now) as [r requests'].
    specialize (IH requests' Hstep k).
    by destruct (run cfg requests' events). }
  apply Hrun. intros k. unfold window. by rewrite lookup_empty.
Qed.

Lemma window_never_outgrows_limit_witness :
  let cfg := {| maxRequests := 2; windowMs := 1000 |} in
  let events := [("A", 0); ("A", 1); ("A", 2); ("A", 3); ("B", 4)] in
  0 <= maxRequests cfg
  ∧ window (snd (run cfg ∅ events)) "A" = [0; 1]
  ∧ Z.of_nat (length (window (snd (run cfg ∅ events)) "A")) <= maxRequests cfg.
Proof.
  split; [done|]. split; [by vm_compute|].
  by apply (window_never_outgrows_limit _ _ "A").
Defined.

(** X4: No lockout outlasts the window: in any state of the limiter, a key all
    of whose stored timestamps are at least [windowMs] old is let through
    (with a limit of one request or more), and its window restarts from
    this request alone. *)
Theorem idle_key_is_admitted cfg requests key now :
  1 <= maxRequests cfg →
  Forall (λ t, t <= now - windowMs cfg) (window requests key) →
  fst (rateLimit cfg requests key now) = Next
  ∧ snd (rateLimit cfg requests key now) !! key = Some [now].
Proof.
  intros Hmax Hold.
  pose proof (rateLimit_self cfg requests key now) as Hself.
  unfold key_step in Hself. rewrite live_none in Hself
    by (by apply Forall_forall).
  assert ((maxRequests cfg <=? Z.of_nat (length (@nil Z))) = false) as Hz
    by (apply Z.leb_gt; simpl; lia).
  rewrite Hz in Hself. injection Hself as Hr Hw. split; [done|].
  revert Hr. unfold rateLimit.
  fold (window (clean (now - windowMs cfg) requests) key).
  rewrite window_clean, live_none by (by apply Forall_forall).
  rewrite Hz. intros _. simpl. by rewrite lookup_insert_eq.
Qed.

Lemma idle_key_is_admitted_witness :
  let cfg := {| maxRequests := 2; windowMs := 1000 |} in
  let requests := snd (run cfg ∅ [("A", 0); ("A", 1); ("A", 2)]) in
  1 <= maxRequests cfg
  ∧ Forall (λ t, t <= 1001 - windowMs cfg) (window requests "A")
  ∧ fst (rateLimit cfg requests "A" 1001) = Next
  ∧ snd (rateLimit cfg requests "A" 1001) !! "A" = Some [1001].
Proof.
  assert (Forall (λ t, t <= 1001 - 1000)
            (window (snd (run {| maxRequests := 2; windowMs := 1000 |} ∅
                            [("A", 0); ("A", 1); ("A", 2)])) "A")) as Hold.
  { change (Forall (λ t, t <= 1001 - 1000) [0; 1]). repeat constructor; lia. }
  split; [done|]. split; [exact Hold|].
  apply (idle_key_is_admitted {| maxRequests := 2; windowMs := 1000 |});
    [done | exact Hold].
Defined.

End RateLimitHistories.

(** ** Authentication and the guards built on it *)

Section GuardFacts.
Import JS Auth.
Context `{codec : Jwt.Codec}.

Implicit Types (e : env) (u : user) (token : string).

Lemma verify_issued e1 e2 u issued now :
  secret e1 = secret e2 →
  verifyToken e2 now (generateToken e1 issued u)
  = if issued / 1000 + 7 * 24 * 60 * 60 <=? now / 1000
    then Throw (Error "Invalid token")
    else Return (issued_claim u issued).
Proof.
  intros Hs. unfold verifyToken, generateToken, Jwt.verify, Jwt.sign.
  rewrite Jwt.parse_compact, Hs. simpl.
  rewrite String.eqb_refl. simpl.
  change (Jwt.ms_7d / 1000) with (7 * 24 * 60 * 60).
  by destruct (_ <=? _).
Qed.

Lemma authenticate_bearer e now token :
  trim token = token → token ≠ "" →
  authenticate e now (Some ("Bearer " +:+ token))
  = match verifyToken e now token with
    | Return decoded => (Some decoded, Next)
    | Throw _ => (None, Json 401 [("error", "Invalid or expired token")])
    end.
Proof.
  intros Htrim Hne. unfold authenticate.
  rewrite extractToken_bearer, Htrim. simpl.
  destruct token; [done|]. done.
Qed.

Lemma extractToken_None h :
  extractToken h = None ↔ ∀ rest, h ≠ Some ("Bearer " +:+ rest).
Proof.
  split.
  - intros Hnone rest ->. by rewrite extractToken_bearer in Hnone.
  - intros Hshape. destruct h as [s|]; [|done]. unfold extractToken.
    destruct (s =? "")%string; [done|].
    destruct (startsWith s "Bearer ") eqn:Hs; [|done].
    apply startsWith_inv in Hs as [rest ->]. by destruct (Hshape rest).
Qed.

(** X5: A token of this server in the Authorization header: [authenticate]
    calls [next] with [req.user] set to the claim of the user until the
    clock reaches the expiry, seven days after issuance, and answers 401
    "Invalid or expired token" from then on.  (A compact token has no white
    space at its ends and is not empty.) *)
Theorem authenticate_issued_token e u (issued now : Z) :
  trim (generateToken e issued u) = generateToken e issued u →
  generateToken e issued u ≠ "" →
  authenticate e now (Some ("Bearer " +:+ generateToken e issued u))
  = if issued / 1000 + 7 * 24 * 60 * 60 <=? now / 1000
    then (None, Json 401 [("error", "Invalid or expired token")])
    else (Some (issued_claim u issued), Next).
Proof.
  intros Htrim Hne. rewrite authenticate_bearer by done.
  rewrite (verify_issued e e) by done. by destruct (_ <=? _).
Qed.

(** X6: [authenticate] answers 401 "Access token required" exactly when the
    header is missing, does not start with ["Bearer "], or has nothing but
    white space after that prefix. *)
Theorem authenticate_missing_credential e now (h : option string) :
  authenticate e now h = (None, Json 401 [("error", "Access token required")])
  ↔ (∀ rest, h ≠ Some ("Bearer " +:+ rest))
    ∨ (∃ rest, h = Some ("Bearer " +:+ rest) ∧ all_white rest = true).
Proof.
  unfold authenticate. split.
  - intros Hauth. destruct (extractToken h) as [token|] eqn:Hext.
    + right. destruct h as [s|]; [|done].
      assert (∃ rest, s = "Bearer " +:+ rest) as [rest ->].
      { revert Hext. unfold extractToken.
        destruct (s =? "")%string; [done|].
        destruct (startsWith s "Bearer ") eqn:Hs; [|done].
        intros _. by apply startsWith_inv. }
      exists rest. split; [done|].
      rewrite extractToken_bearer in Hext. injection Hext as <-.
      apply trim_empty. simpl in Hauth.
      destruct (trim rest =? "")%string eqn:Heq; [by apply eqb_empty|].
      by destruct (verifyToken e now (trim rest)).
    + left. by apply extractToken_None.
  - intros [Hno|(rest & -> & Hw)].
    + apply extractToken_None in Hno. by rewrite Hno.
    + rewrite extractToken_bearer. apply trim_empty in Hw. by rewrite Hw.
Qed.

(** X7: Whom [requireOwnership] lets through: with a [userId] route parameter,
    the request whose claim carries that very string as [userId] (a numeric
    [userId] never matches); without one, only a claim that has no [userId]
    either.  Everyone else gets 403 "Access denied. Not the owner."; and
    without [req.user] the middleware throws instead of answering. *)
Theorem requireOwnership_decision (params : gmap string string)
    (claim : Jwt.payload) :
  (∀ owner, params !! "userId" = Some owner →
     (requireOwnership params (Some claim) = Return Next
      ↔ Jwt.userId claim = JStr owner))
  ∧ (params !! "userId" = None →
     (requireOwnership params (Some claim) = Return Next
      ↔ Jwt.userId claim = JUndefined))
  ∧ (requireOwnership params (Some claim) ≠ Return Next →
     requireOwnership params (Some claim)
     = Return (Json 403 [("error", "Access denied. Not the owner.")]))
  ∧ requireOwnership params None = Throw TypeError.
Proof.
  unfold requireOwnership, param, strict_eq. split_and!.
  - intros owner ->. simpl. case_bool_decide; simpl; split; congruence.
  - intros ->. simpl. case_bool_decide; simpl; split; congruence.
  - by case_bool_decide.
  - done.
Qed.

(** X8: Updating and deleting posts is closed to every token of this server:
    the guard of [PUT] and [DELETE /api/posts/:id] compares
    [req.params.userId], which that route does not bind, with the [userId]
    of the claim, so an unexpired token is answered 403 "Access denied.
    Not the owner." whatever the post and whoever the user. *)
Theorem post_owner_guard_denies_issued_tokens e u (issued now : Z) (id : string) :
  trim (generateToken e issued u) = generateToken e issued u →
  generateToken e issued u ≠ "" →
  post_owner_guard e now (Some ("Bearer " +:+ generateToken e issued u)) id
  = Return (if issued / 1000 + 7 * 24 * 60 * 60 <=? now / 1000
            then Json 401 [("error", "Invalid or expired token")]
            else Json 403 [("error", "Access denied. Not the owner.")]).
Proof.
  intros Htrim Hne. unfold post_owner_guard.
  rewrite authenticate_bearer by done.
  rewrite (verify_issued e e) by done.
  destruct (_ <=? _); [done|]. unfold requireOwnership, param.
  by rewrite lookup_singleton_ne.
Qed.

(** X9: No token of this server passes a role check: [generateToken] puts no
    [role] into the payload, so [authenticate] followed by
    [requireRole(role)] answers an unexpired token with 403 "Role
    information not found", for every role. *)
Theorem role_guard_denies_issued_tokens e u (issued now : Z) (role : jsval) :
  trim (generateToken e issued u) = generateToken e issued u →
  generateToken e issued u ≠ "" →
  role_guard e now (Some ("Bearer " +:+ generateToken e issued u)) role
  = if issued / 1000 + 7 * 24 * 60 * 60 <=? now / 1000
    then Json 401 [("error", "Invalid or expired token")]
    else Json 403 [("error", "Role information not found")].
Proof.
  intros Htrim Hne. unfold role_guard.
  rewrite authenticate_bearer by done.
  rewrite (verify_issued e e) by done.
  by destruct (_ <=? _).
Qed.

(** X10: An empty [JWT_SECRET] is no secret: a process whose [JWT_SECRET] is
    unset or the empty string signs and verifies with
    ['default-secret-key'], so the tokens of one such process are accepted
    by any other. *)
Theorem empty_secret_is_default e1 e2 u (issued now : Z) :
  falsy_string (JWT_SECRET e1) = true →
  falsy_string (JWT_SECRET e2) = true →
  now / 1000 < issued / 1000 + 7 * 24 * 60 * 60 →
  secret e1 = "default-secret-key"
  ∧ verifyToken e2 now (generateToken e1 issued u)
    = Return (issued_claim u issued).
Proof.
  intros H1 H2 Hnow.
  assert (secret e1 = "default-secret-key") as Hs1 by (unfold secret; by rewrite H1).
  assert (secret e2 = "default-secret-key") as Hs2 by (unfold secret; by rewrite H2).
  split; [done|]. rewrite verify_issued by congruence.
  by destruct (Z.leb_spec (issued / 1000 + 7 * 24 * 60 * 60) (now / 1000)); [lia|].
Qed.

End GuardFacts.

Lemma authenticate_issued_token_witness :
  let e := {| Auth.JWT_SECRET := None |} in
  let u := {| Auth._id := "7"; Auth.username := "a" |} in
  JS.trim (Auth.generateToken e 1700000000123 u)
  = Auth.generateToken e 1700000000123 u
  ∧ Auth.generateToken e 1700000000123 u ≠ ""
  ∧ Auth.authenticate e 1700000005000
      (Some ("Bearer " +:+ Auth.generateToken e 1700000000123 u))
    = (Some (Auth.issued_claim u 1700000000123), Next).
Proof.
  split; [by vm_compute|]. split; [by vm_compute|].
  rewrite (authenticate_issued_token (codec := BitCodec.codec)
             {| Auth.JWT_SECRET := None |}
             {| Auth._id := "7"; Auth.username := "a" |}
             1700000000123 1700000005000); by vm_compute.
Defined.

Lemma post_owner_guard_denies_issued_tokens_witness :
  let e := {| Auth.JWT_SECRET := None |} in
  let u := {| Auth._id := "7"; Auth.username := "a" |} in
  JS.trim (Auth.generateToken e 1700000000123 u)
  = Auth.generateToken e 1700000000123 u
  ∧ Auth.generateToken e 1700000000123 u ≠ ""
  ∧ Auth.post_owner_guard e 1700000005000
      (Some ("Bearer " +:+ Auth.generateToken e 1700000000123 u)) "42"
    = JS.Return (Json 403 [("error", "Access denied. Not the owner.")]).
Proof.
  split; [by vm_compute|]. split; [by vm_compute|].
  rewrite (post_owner_guard_denies_issued_tokens (codec := BitCodec.codec)
             {| Auth.JWT_SECRET := None |}
             {| Auth._id := "7"; Auth.username := "a" |}
             1700000000123 1700000005000 "42"); by vm_compute.
Defined.

Lemma role_guard_denies_issued_tokens_witness :
  let e := {| Auth.JWT_SECRET := None |} in
  let u := {| Auth._id := "7"; Auth.username := "a" |} in
  JS.trim (Auth.generateToken e 1700000000123 u)
  = Auth.generateToken e 1700000000123 u
  ∧ Auth.generateToken e 1700000000123 u ≠ ""
  ∧ Auth.role_guard e 1700000005000
      (Some ("Bearer " +:+ Auth.generateToken e 1700000000123 u))
      (JS.JStr "admin")
    = Json 403 [("error", "Role information not found")].
Proof.
  split; [by vm_compute|]. split; [by vm_compute|].
  rewrite (role_guard_denies_issued_tokens (codec := BitCodec.codec)
             {| Auth.JWT_SECRET := None |}
             {| Auth._id := "7"; Auth.username := "a" |}
             1700000000123 1700000005000 (JS.JStr "admin")); by vm_compute.
Defined.

Lemma empty_secret_is_default_witness :
  let e1 := {| Auth.JWT_SECRET := Some "" |} in
  let e2 := {| Auth.JWT_SECRET := None |} in
  let u := {| Auth._id := "7"; Auth.username := "a" |} in
  JS.falsy_string (Auth.JWT_SECRET e1) = true
  ∧ JS.falsy_string (Auth.JWT_SECRET e2) = true
  ∧ 1700000005000 / 1000 < 1700000000123 / 1000 + 7 * 24 * 60 * 60
  ∧ Auth.secret e1 = "default-secret-key"
  ∧ Auth.verifyToken e2 1700000005000 (Auth.generateToken e1 1700000000123 u)
    = JS.Return (Auth.issued_claim u 1700000000123).
Proof.
  split; [reflexivity|]. split; [reflexivity|]. split; [reflexivity|].
  apply (empty_secret_is_default (codec := BitCodec.codec)
           {| Auth.JWT_SECRET := Some "" |} {| Auth.JWT_SECRET := None |}
           {| Auth._id := "7"; Auth.username := "a" |}
           1700000000123 1700000005000); reflexivity.
Defined.

(** ** The timing monitor in use *)

Section MonitorUse.
Import Perf.

Implicit Types (m : monitor) (id : string) (details : list (string * string)).

(** More than 1000 ms is more than 10^9 ns. *)
Lemma slow_threshold_ns (endTime start : Z) :
  Qle_bool (elapsed_ms endTime start) 1000
  = negb (1000000000 <? endTime - start).
Proof.
  unfold Qle_bool, elapsed_ms. simpl.
  destruct (Z.leb_spec ((endTime - start) * 1) 1000000000),
           (Z.ltb_spec 1000000000 (endTime - start)); simpl; lia.
Qed.

Lemma slow_threshold_same (endTime start : Z) :
  Qle_bool (elapsed_ms endTime start) slowRequestThreshold
  = negb (1000000000 <? endTime - start).
Proof. apply slow_threshold_ns. Qed.

(** X11: A slow request is reported twice, a fast one not at all: when a
    request ends, the monitor logs the performance entry at level "warn"
    together with the "Slow request detected" warning if the request took
    more than 10^9 ns, and the performance entry at level "debug" alone
    otherwise; the timing entry is removed either way. *)
Theorem slow_request_is_reported_twice (show : Q → string) m id
    (method url : string) details (hr : Z) (metric : Perf.metric) :
  metrics m !! id = Some metric →
  log (requestMonitor_end show m id method url details hr)
  = log m
      ++ (if 1000000000 <? hr - startTime metric
          then [performance "warn" id (elapsed_ms hr (startTime metric)) details;
                warn ("Slow request detected: " +:+ method +:+ " " +:+ url
                      +:+ " took " +:+ show (elapsed_ms hr (startTime metric))
                      +:+ "ms")]
          else [performance "debug" id (elapsed_ms hr (startTime metric)) details])
  ∧ metrics (requestMonitor_end show m id method url details hr)
    = delete id (metrics m).
Proof.
  intros Hrun. unfold requestMonitor_end.
  rewrite (endTiming_running m id details hr metric Hrun).
  rewrite slow_threshold_same, slow_threshold_ns.
  destruct (1000000000 <? hr - startTime metric); simpl; [|done].
  by rewrite <- app_assoc.
Qed.

Lemma slow_request_is_reported_twice_witness :
  let m := snd (requestMonitor new "GET" "/api/posts" 1700000000123 5) in
  let id := request_id "GET" "/api/posts" 1700000000123 in
  metrics m !! id = Some {| startTime := 5; operationId := id |}
  ∧ log (requestMonitor_end (λ _, "1500") m id "GET" "/api/posts" [] 1500000005)
    = [performance "warn" id (elapsed_ms 1500000005 5) [];
       warn "Slow request detected: GET /api/posts took 1500ms"].
Proof.
  assert (metrics (snd (requestMonitor new "GET" "/api/posts" 1700000000123 5))
            !! request_id "GET" "/api/posts" 1700000000123
          = Some {| startTime := 5;
                    operationId := request_id "GET" "/api/posts" 1700000000123 |})
    as Hrun by apply lookup_insert_eq.
  split; [exact Hrun|].
  rewrite (proj1 (slow_request_is_reported_twice (λ _, "1500") _ _ "GET"
                    "/api/posts" [] 1500000005 _ Hrun)).
  reflexivity.
Defined.

(** X12: Two requests with the same method and url that arrive in the same
    millisecond share one operation id, hence one timing entry: the one
    that ends first is timed from the start of the second, and the other
    one finds no entry, so that it is logged as "No timing started" and is
    never reported as slow, however long it took. *)
Theorem colliding_requests_share_one_timing (show : Q → string) m
    (method url : string) (now hr1 hr2 hr3 hr4 : Z)
    (details1 details2 : list (string * string)) :
  let id1 := fst (requestMonitor m method url now hr1) in
  let m1 := snd (requestMonitor m method url now hr1) in
  let id2 := fst (requestMonitor m1 method url now hr2) in
  let m2 := snd (requestMonitor m1 method url now hr2) in
  let m3 := requestMonitor_end show m2 id1 method url details1 hr3 in
  let m4 := requestMonitor_end show m3 id2 method url details2 hr4 in
  id1 = id2
  ∧ fst (endTiming m2 id1 details1 hr3) = Some (elapsed_ms hr3 hr2)
  ∧ metrics m3 = delete id1 (metrics m)
  ∧ log m4 = log m3 ++ [warn ("No timing started for operation: " +:+ id2)].
Proof.
  simpl. set (id := request_id method url now).
  assert (metrics (startTiming (startTiming m id hr1) id hr2) !! id
          = Some {| startTime := hr2; operationId := id |}) as Hrun
    by apply lookup_insert_eq.
  destruct (slow_request_is_reported_twice show _ id method url details1 hr3 _ Hrun)
    as [_ Hmetrics].
  split; [done|]. split; [by rewrite (endTiming_running _ _ _ _ _ Hrun)|].
  split.
  - rewrite Hmetrics. simpl. by rewrite insert_insert_eq, delete_insert_eq.
  - unfold requestMonitor_end at 1.
    rewrite endTiming_unknown; [done|].
    rewrite Hmetrics. apply lookup_delete_eq.
Qed.

(** X13: Starting an operation that is already running restarts it: the first
    start is forgotten, the next [endTiming] measures from the second
    start, and a further [endTiming] finds nothing. *)
Theorem restart_forgets_first_start m id details1 details2 (t0 t1 t2 t3 : Z) :
  fst (endTiming (startTiming (startTiming m id t0) id t1) id details1 t2)
  = Some (elapsed_ms t2 t1)
  ∧ fst (endTiming
           (snd (endTiming (startTiming (startTiming m id t0) id t1) id details1 t2))
           id details2 t3)
    = None
  ∧ activeMetrics (startTiming (startTiming m id t0) id t1)
    = activeMetrics (startTiming m id t0).
Proof.
  assert (metrics (startTiming (startTiming m id t0) id t1) !! id
          = Some {| startTime := t1; operationId := id |}) as Hrun
    by apply lookup_insert_eq.
  rewrite (endTiming_running _ _ details1 t2 _ Hrun). simpl.
  split; [done|]. split.
  - rewrite endTiming_unknown; [done|]. apply lookup_delete_eq.
  - unfold activeMetrics, startTiming. cbn [metrics].
    by rewrite map_size_insert, lookup_insert_eq.
Qed.

(** X14: Operations with other ids do not disturb a measurement: after any
    sequence of [startTiming] and [endTiming] calls for ids other than
    [id], the entry of [id] is what it was, and [endTiming(id)] returns what
    it would have returned before them. *)
Theorem other_ids_do_not_disturb m id (calls : list call) details (now : Z) :
  Forall (λ c, call_id c ≠ id) calls →
  metrics (foldl perform m calls) !! id = metrics m !! id
  ∧ fst (endTiming (foldl perform m calls) id details now)
    = fst (endTiming m id details now).
Proof.
  intros Hcalls.
  assert (metrics (foldl perform m calls) !! id = metrics m !! id) as Hsame.
  { revert m. induction Hcalls as [|c calls Hc _ IH]; intros m; [done|].
    simpl. rewrite IH. destruct c as [id' t|id' d t]; simpl in *.
    - by rewrite lookup_insert_ne.
    - unfold endTiming. destruct (metrics m !! id'); simpl; [|done].
      by rewrite lookup_delete_ne. }
  split; [done|]. unfold endTiming. rewrite Hsame.
  by destruct (metrics m !! id).
Qed.

Lemma other_ids_do_not_disturb_witness :
  let m := startTiming new "a" 10 in
  let calls := [Start "b" 11; Start "c" 12; End "b" [] 13; End "d" [] 14] in
  Forall (λ c, call_id c ≠ "a") calls
  ∧ fst (endTiming (foldl perform m calls) "a" [] 20) = Some (elapsed_ms 20 10).
Proof.
  assert (Forall (λ c, call_id c ≠ "a")
            [Start "b" 11; Start "c" 12; End "b" [] 13; End "d" [] 14]) as Hcalls
    by (repeat constructor; done).
  split; [exact Hcalls|].
  rewrite (proj2 (other_ids_do_not_disturb (startTiming new "a" 10) "a" _ [] 20
                    Hcalls)).
  reflexivity.
Defined.

Lemma endTiming_metrics m id details (now : Z) :
  metrics (snd (endTiming m id details now)) = delete id (metrics m).
Proof.
  unfold endTiming. destruct (metrics m !! id) eqn:E; simpl; [done|].
  symmetry. by apply delete_id.
Qed.

(** X15: [timeFunction] passes on what the function returns, or throws
    again the value it was rejected with, and then leaves no entry for the
    operation, with one exception: when the function is rejected with
    [null] or [undefined], reading [error.message] throws, so the call
    fails with that [TypeError] in place of the rejection, [endTiming] is
    not called and the monitor stays as the function left it.  When the
    operation was not already running and the function leaves the monitor
    alone, the set of running operations is therefore what it was before
    the call, or, in the exceptional case, has the entry of the operation
    left over. *)
Theorem timeFunction_cleans_up_unless_nullish {A V : Type}
    (message : V → JS.message_reading) m id
    (fn : monitor → JS.result V A * monitor) details (t0 t1 : Z) :
  (∀ r, fst (fn (startTiming m id t0)) = JS.Return r →
     fst (timeFunction message m id fn details t0 t1) = JS.Return r
     ∧ metrics (snd (timeFunction message m id fn details t0 t1))
       = delete id (metrics (snd (fn (startTiming m id t0)))))
  ∧ (∀ error, fst (fn (startTiming m id t0)) = JS.Throw error →
       message error ≠ JS.unreadable →
       fst (timeFunction message m id fn details t0 t1)
       = JS.Throw (rejected error)
       ∧ metrics (snd (timeFunction message m id fn details t0 t1))
         = delete id (metrics (snd (fn (startTiming m id t0)))))
  ∧ (∀ error, fst (fn (startTiming m id t0)) = JS.Throw error →
       message error = JS.unreadable →
       timeFunction message m id fn details t0 t1
       = (JS.Throw type_error, snd (fn (startTiming m id t0))))
  ∧ (metrics m !! id = None →
     snd (fn (startTiming m id t0)) = startTiming m id t0 →
     (∀ error, fst (fn (startTiming m id t0)) = JS.Throw error →
        message error ≠ JS.unreadable) →
     metrics (snd (timeFunction message m id fn details t0 t1)) = metrics m
     ∧ activeMetrics (snd (timeFunction message m id fn details t0 t1))
       = activeMetrics m)
  ∧ (metrics m !! id = None →
     snd (fn (startTiming m id t0)) = startTiming m id t0 →
     ∀ error, fst (fn (startTiming m id t0)) = JS.Throw error →
       message error = JS.unreadable →
       metrics (snd (timeFunction message m id fn details t0 t1)) !! id
       = Some {| startTime := t0; operationId := id |}
       ∧ log (snd (timeFunction message m id fn details t0 t1)) = log m
       ∧ activeMetrics (snd (timeFunction message m id fn details t0 t1))
         = S (activeMetrics m)).
Proof.
  assert (∀ r, fst (fn (startTiming m id t0)) = JS.Return r →
            fst (timeFunction message m id fn details t0 t1) = JS.Return r
            ∧ metrics (snd (timeFunction message m id fn details t0 t1))
              = delete id (metrics (snd (fn (startTiming m id t0))))) as Hreturn.
  { intros r. unfold timeFunction.
    destruct (fn (startTiming m id t0)) as [[r'|error] m']; simpl; [|done].
    intros [= ->]. split; [done|apply endTiming_metrics]. }
  assert (∀ error, fst (fn (startTiming m id t0)) = JS.Throw error →
            message error ≠ JS.unreadable →
            fst (timeFunction message m id fn details t0 t1)
            = JS.Throw (rejected error)
            ∧ metrics (snd (timeFunction message m id fn details t0 t1))
              = delete id (metrics (snd (fn (startTiming m id t0))))) as Hthrow.
  { intros error. unfold timeFunction.
    destruct (fn (startTiming m id t0)) as [[r'|error'] m']; simpl; [done|].
    intros [= ->] Hread.
    destruct (message error); [done| |]; simpl;
      (split; [done|apply endTiming_metrics]). }
  assert (∀ error, fst (fn (startTiming m id t0)) = JS.Throw error →
            message error = JS.unreadable →
            timeFunction message m id fn details t0 t1
            = (JS.Throw type_error, snd (fn (startTiming m id t0)))) as Hleak.
  { intros error. unfold timeFunction.
    destruct (fn (startTiming m id t0)) as [[r'|error'] m']; simpl; [done|].
    by intros [= ->] ->. }
  split_and!; [done|done|done| |].
  - intros Hfresh Hleft Hread.
    assert (metrics (snd (timeFunction message m id fn details t0 t1))
            = metrics m) as Heq.
    { destruct (fst (fn (startTiming m id t0))) as [r|error] eqn:Hout.
      - rewrite (proj2 (Hreturn r eq_refl)), Hleft. simpl.
        by apply delete_insert_id.
      - rewrite (proj2 (Hthrow error eq_refl (Hread error eq_refl))), Hleft.
        simpl. by apply delete_insert_id. }
    split; [done|]. unfold activeMetrics. by rewrite Heq.
  - intros Hfresh Hleft error Hout Hread.
    rewrite (Hleak error Hout Hread), Hleft. simpl.
    split_and!; [apply lookup_insert_eq|done|].
    unfold activeMetrics. simpl. by rewrite map_size_insert, Hfresh.
Qed.

Lemma timeFunction_cleans_up_unless_nullish_witness :
  let failing := λ m : monitor,
    (@JS.Throw JS.thrown nat (JS.object (JS.Error "connection lost")), m) in
  let nullish := λ m : monitor,
    (@JS.Throw JS.thrown nat (JS.primitive JS.JNull), m) in
  (fst (timeFunction JS.read_message new "op" failing [("error", "none")] 5 9)
   = JS.Throw (rejected (JS.object (JS.Error "connection lost")))
   ∧ metrics (snd (timeFunction JS.read_message new "op" failing
                     [("error", "none")] 5 9)) = ∅
   ∧ log (snd (timeFunction JS.read_message new "op" failing
                 [("error", "none")] 5 9))
     = [performance "debug" "op" (elapsed_ms 9 5)
          [("error", "connection lost")]])
  ∧ (timeFunction JS.read_message new "op" nullish [("error", "none")] 5 9
     = (JS.Throw type_error, startTiming new "op" 5)
     ∧ activeMetrics (snd (timeFunction JS.read_message new "op" nullish
                             [("error", "none")] 5 9)) = 1%nat).
Proof.
  pose (failing := λ m : monitor,
          (@JS.Throw JS.thrown nat (JS.object (JS.Error "connection lost")), m)).
  pose (nullish := λ m : monitor,
          (@JS.Throw JS.thrown nat (JS.primitive JS.JNull), m)).
  destruct (timeFunction_cleans_up_unless_nullish JS.read_message new "op"
              failing [("error", "none")] 5 9)
    as (_ & Hthrow & _ & Hclean & _).
  destruct (timeFunction_cleans_up_unless_nullish JS.read_message new "op"
              nullish [("error", "none")] 5 9)
    as (_ & _ & Hleak & _ & Hleft).
  split.
  - split; [by apply Hthrow|]. split; [|reflexivity].
    apply Hclean; [done|done|]. by intros error [= <-].
  - split; [by apply (Hleak (JS.primitive JS.JNull))|].
    by apply (Hleft eq_refl eq_refl (JS.primitive JS.JNull)).
Defined.

Lemma first_chars_prefix n s : ∃ rest, s = JS.first_chars n s +:+ rest.
Proof.
  revert s. induction n as [|n IH]; intros s.
  - by exists s.
  - destruct s as [|c s]; [by exists ""|].
    destruct (IH s) as [rest Hrest]. exists rest.
    change (String c s = String c (JS.first_chars n s +:+ rest)). by f_equal.
Qed.

Lemma first_chars_length n s :
  String.length (JS.first_chars n s) = Nat.min n (String.length s).
Proof.
  revert s. induction n as [|n IH]; intros [|c s]; simpl; try done.
  by rewrite IH.
Qed.

(** X16: The query text that [monitorDatabaseQuery] logs is the first 200
    characters of the JSON text, all of it when it has no more: the logged
    [query] is a prefix of the text and its length is the smaller of 200 and
    the length of the text.  For a function that leaves the monitor alone
    and is not rejected with [null] or [undefined], the call adds one
    performance entry, which holds this [query], and leaves no timing entry;
    for one rejected with [null] or [undefined] it fails with a [TypeError],
    logs nothing and leaves the timing entry behind; a query without JSON
    text makes the call throw before any timing starts. *)
Theorem monitorDatabaseQuery_limits_query {A V : Type}
    (message : V → JS.message_reading) m
    (operation collection text : string)
    (fn : monitor → JS.result V A * monitor) (now t0 t1 : Z) :
  (∀ m0, snd (fn m0) = m0) →
  ((∀ error,
      fst (fn (startTiming m (query_id operation collection now) t0))
      = JS.Throw error →
      message error ≠ JS.unreadable) →
   ∃ level details query rest,
     log (snd (monitorDatabaseQuery message m operation collection (Some text)
                 fn now t0 t1))
     = log m ++ [performance level (query_id operation collection now)
                   (elapsed_ms t1 t0) details]
     ∧ (("query", query) ∈ details)
     ∧ text = query +:+ rest
     ∧ String.length query = Nat.min 200 (String.length text)
     ∧ metrics (snd (monitorDatabaseQuery message m operation collection
                       (Some text) fn now t0 t1))
         !! query_id operation collection now = None)
  ∧ (∀ error,
       fst (fn (startTiming m (query_id operation collection now) t0))
       = JS.Throw error →
       message error = JS.unreadable →
       fst (monitorDatabaseQuery message m operation collection (Some text)
              fn now t0 t1) = JS.Throw type_error
       ∧ log (snd (monitorDatabaseQuery message m operation collection
                     (Some text) fn now t0 t1)) = log m
       ∧ metrics (snd (monitorDatabaseQuery message m operation collection
                         (Some text) fn now t0 t1))
           !! query_id operation collection now
         = Some {| startTime := t0;
                   operationId := query_id operation collection now |})
  ∧ monitorDatabaseQuery message m operation collection None fn now t0 t1
    = (JS.Throw type_error, m).
Proof.
  intros Hfn. set (id := query_id operation collection now).
  set (query := JS.substring_between 0 200 text).
  assert (query = JS.first_chars 200 text) as Hq by reflexivity.
  destruct (first_chars_prefix 200 text) as [rest Hrest].
  assert (metrics (startTiming m id t0) !! id
          = Some {| startTime := t0; operationId := id |}) as Hrun
    by apply lookup_insert_eq.
  unfold monitorDatabaseQuery, timeFunction. fold id. fold query.
  specialize (Hfn (startTiming m id t0)).
  destruct (fn (startTiming m id t0)) as [[r|error] m']; simpl in Hfn; subst m'.
  - split_and!; [|done|done]. intros _.
    rewrite (endTiming_running _ _ _ _ _ Hrun); simpl.
    eexists _, _, query, rest. split; [done|].
    split; [set_solver|]. rewrite Hq.
    split; [done|]. split; [apply first_chars_length|apply lookup_delete_eq].
  - split_and!; [| |done].
    + intros Hread. specialize (Hread error eq_refl).
      destruct (message error) as [| |text']; [done| |];
        rewrite (endTiming_running _ _ _ _ _ Hrun); simpl;
        eexists _, _, query, rest; (split; [done|]);
        (split; [set_solver|]); rewrite Hq;
        (split; [done|]);
        (split; [apply first_chars_length|apply lookup_delete_eq]).
    + intros error' [= <-] ->. simpl. done.
Qed.

Lemma monitorDatabaseQuery_limits_query_witness :
  let fn := λ m : monitor, (@JS.Return JS.thrown nat 3%nat, m) in
  (∀ m0, snd (fn m0) = m0)
  ∧ (∀ error,
       fst (fn (startTiming new (query_id "find" "posts" 1700000000123) 5))
       = JS.Throw error →
       JS.read_message error ≠ JS.unreadable)
  ∧ log (snd (monitorDatabaseQuery JS.read_message new "find" "posts"
                (Some "{}") fn 1700000000123 5 9))
    = [performance "debug" "db-find-posts-1700000000123" (elapsed_ms 9 5)
         [("operation", "find"); ("collection", "posts"); ("query", "{}")]]
  ∧ ∃ level details query rest,
      log (snd (monitorDatabaseQuery JS.read_message new "find" "posts"
                  (Some "{}") fn 1700000000123 5 9))
      = log new ++ [performance level (query_id "find" "posts" 1700000000123)
                      (elapsed_ms 9 5) details]
      ∧ (("query", query) ∈ details)
      ∧ "{}" = query +:+ rest
      ∧ String.length query = Nat.min 200 (String.length "{}")
      ∧ metrics (snd (monitorDatabaseQuery JS.read_message new "find" "posts"
                        (Some "{}") fn 1700000000123 5 9))
          !! query_id "find" "posts" 1700000000123 = None.
Proof.
  pose (fn := λ m : monitor, (@JS.Return JS.thrown nat 3%nat, m)).
  assert (∀ m0, snd (fn m0) = m0) as Hfn by done.
  assert (∀ error,
            fst (fn (startTiming new (query_id "find" "posts" 1700000000123) 5))
            = JS.Throw error →
            JS.read_message error ≠ JS.unreadable) as Hread by done.
  split; [exact Hfn|]. split; [exact Hread|]. split; [by vm_compute|].
  exact (proj1 (monitorDatabaseQuery_limits_query JS.read_message new "find"
                  "posts" "{}" fn 1700000000123 5 9 Hfn) Hread).
Defined.

End MonitorUse.

(** ** The global error handler *)

Section ErrorHandlerFacts.
Import JS ErrorHandler.

(** X17: Outside development nothing of the error leaks: the answer of
    [errorHandler] is the object [{ error }] alone, with one of six fixed
    messages and the status that goes with it, whatever the message, the
    stack and the other properties of the error are. *)
Theorem errorHandler_does_not_leak (node_env : option string) (e : err) :
  node_env ≠ Some "development" →
  ∃ statusCode msg,
    errorHandler node_env e = (statusCode, [("error", JStr msg)])
    ∧ (statusCode, msg) ∈ [(400, "Validation Error"); (400, "Invalid ID format");
                            (401, "Invalid token"); (401, "Token expired");
                            (409, "Duplicate entry");
                            (500, "Internal Server Error")].
Proof.
  intros Henv. unfold errorHandler.
  rewrite bool_decide_eq_false_2 by done.
  unfold classify.
  repeat (destruct (strict_eq _ _); [eexists _, _; split; [done|set_solver]|]).
  eexists _, _; split; [done|set_solver].
Qed.

Lemma errorHandler_does_not_leak_witness :
  let e := {| name := JStr "MongoServerError";
              message := JStr "E11000 duplicate key: users.email";
              stack := JStr "at insert (db.js:10)"; code := JNum 11000 |} in
  Some "production" ≠ Some "development"
  ∧ ∃ statusCode msg,
      errorHandler (Some "production") e = (statusCode, [("error", JStr msg)])
      ∧ (statusCode, msg) ∈ [(400, "Validation Error"); (400, "Invalid ID format");
                              (401, "Invalid token"); (401, "Token expired");
                              (409, "Duplicate entry");
                              (500, "Internal Server Error")].
Proof.
  split; [done|].
  by apply (errorHandler_does_not_leak (Some "production")).
Defined.

End ErrorHandlerFacts.

(** ** The slug of a post *)

Section SlugFacts.
Import Posts.

Implicit Types (s : list Z) (c : Z).

Lemma dash_is_no_slug_char : is_slug_char dash = false.
Proof. reflexivity. Qed.

Lemma replace_runs_chars s : ∀ in_run,
  Forall (λ c, is_slug_char c = true ∨ c = dash) (replace_runs in_run s).
Proof.
  induction s as [|c s IH]; intros in_run; simpl; [done|].
  destruct (is_slug_char c) eqn:Hc.
  - constructor; [by left|apply IH].
  - destruct in_run; [apply IH|]. constructor; [by right|apply IH].
Qed.

Lemma replace_runs_head s : head (replace_runs true s) ≠ Some dash.
Proof.
  induction s as [|c s IH]; simpl; [done|].
  destruct (is_slug_char c) eqn:Hc; [|done]. simpl.
  intros [= ->]. done.
Qed.

Lemma single_dashes_cons c s :
  (c = dash → head s ≠ Some dash) → single_dashes s → single_dashes (c :: s).
Proof.
  intros Hh Hs [|i]; simpl.
  - intros [= ->]. rewrite <- head_lookup. by apply Hh.
  - apply Hs.
Qed.

Lemma single_dashes_tail c s : single_dashes (c :: s) → single_dashes s.
Proof. intros Hs i. apply (Hs (S i)). Qed.

Lemma single_dashes_prefix s1 s2 : single_dashes (s1 ++ s2) → single_dashes s1.
Proof.
  intros Hs i Hi Hi'. apply (Hs i); by apply lookup_app_l_Some.
Qed.

Lemma single_dashes_before_last s :
  single_dashes (s ++ [dash]) → last s ≠ Some dash.
Proof.
  intros Hs Hlast. rewrite last_lookup in Hlast.
  destruct s as [|c s] using rev_ind; [done|].
  rewrite length_app in Hlast. simpl in Hlast.
  replace (pred (length s + 1)) with (length s) in Hlast by lia.
  apply (Hs (length s)).
  - by apply lookup_app_l_Some.
  - rewrite lookup_app_r by (rewrite length_app; simpl; lia).
    rewrite length_app. simpl.
    by replace (S (length s) - (length s + 1))%nat with 0%nat by lia.
Qed.

Lemma replace_runs_single s : ∀ in_run, single_dashes (replace_runs in_run s).
Proof.
  induction s as [|c s IH]; intros in_run; [by intros i|]. cbn [replace_runs].
  destruct (is_slug_char c) eqn:Hc.
  - apply single_dashes_cons; [|apply IH].
    intros ->. by rewrite dash_is_no_slug_char in Hc.
  - destruct in_run; [apply IH|].
    apply single_dashes_cons; [|apply IH]. intros _. apply replace_runs_head.
Qed.

Lemma replace_runs_keeps s in_run :
  List.filter is_slug_char (replace_runs in_run s) = List.filter is_slug_char s.
Proof.
  revert in_run. induction s as [|c s IH]; intros in_run; [done|]. simpl.
  destruct (is_slug_char c) eqn:Hc; simpl.
  - by rewrite Hc, IH.
  - destruct in_run; [apply IH|]. simpl. apply IH.
Qed.

Lemma strip_last_dash_snoc s c :
  strip_last_dash (s ++ [c]) = if c =? dash then s else s ++ [c].
Proof.
  induction s as [|c' s IH]; [done|].
  change ((c' :: s) ++ [c]) with (c' :: (s ++ [c])). cbn [strip_last_dash].
  destruct (s ++ [c]) as [|x l] eqn:E; [by destruct s|].
  rewrite IH. by destruct (c =? dash).
Qed.

(** X18: What a slug looks like, whatever the title: it is made of the
    characters a-z, 0-9 and dashes; it neither starts nor ends with a dash
    and has no two dashes in a row; its letters and digits are those of the
    lower-cased title, in the same order; and it is empty exactly when the
    lower-cased title has no letter a-z and no digit. *)
Theorem slug_shape (toLowerCase : list Z → list Z) (title : list Z) :
  Forall (λ c, is_slug_char c = true ∨ c = dash) (slug toLowerCase title)
  ∧ head (slug toLowerCase title) ≠ Some dash
  ∧ last (slug toLowerCase title) ≠ Some dash
  ∧ single_dashes (slug toLowerCase title)
  ∧ List.filter is_slug_char (slug toLowerCase title)
    = List.filter is_slug_char (toLowerCase title)
  ∧ (slug toLowerCase title = []
     ↔ List.filter is_slug_char (toLowerCase title) = []).
Proof.
  unfold slug, strip_dashes.
  pose proof (replace_runs_chars (toLowerCase title) false) as Hchars.
  pose proof (replace_runs_single (toLowerCase title) false) as Hsingle.
  pose proof (replace_runs_keeps (toLowerCase title) false) as Hkeep.
  set (a := replace_runs false (toLowerCase title)) in *.
  set (b := match a with
            | c :: s' => if c =? dash then s' else a
            | [] => []
            end).
  assert (Forall (λ c, is_slug_char c = true ∨ c = dash) b
          ∧ head b ≠ Some dash ∧ single_dashes b
          ∧ List.filter is_slug_char b = List.filter is_slug_char a)
    as (Hb1 & Hb2 & Hb3 & Hb4).
  { unfold b. destruct a as [|c s']; [done|].
    destruct (Z.eqb_spec c dash) as [->|Hne].
    - apply Forall_cons in Hchars as [_ ?]. split_and!; [done| | |done].
      + rewrite head_lookup. by apply (Hsingle 0%nat).
      + by eapply single_dashes_tail.
    - split_and!; [done| |done|done]. by intros [= ->]. }
  clearbody b. rewrite <- Hkeep, <- Hb4. clear Hchars Hsingle Hkeep Hb4 a.
  assert (Forall (λ c, is_slug_char c = true ∨ c = dash) (strip_last_dash b)
          ∧ head (strip_last_dash b) ≠ Some dash
          ∧ last (strip_last_dash b) ≠ Some dash
          ∧ single_dashes (strip_last_dash b)
          ∧ List.filter is_slug_char (strip_last_dash b)
            = List.filter is_slug_char b)
    as (Hr1 & Hr2 & Hr3 & Hr4 & Hr5).
  { destruct b as [|c b _] using rev_ind; [done|].
    rewrite strip_last_dash_snoc.
    destruct (Z.eqb_spec c dash) as [->|Hne].
    - apply Forall_app in Hb1 as [Hb1 _]. split_and!; [done| | | |].
      + by destruct b.
      + by apply single_dashes_before_last.
      + by eapply single_dashes_prefix.
      + by rewrite List.filter_app, app_nil_r.
    - split_and!; [done|done| |done|done].
      rewrite last_snoc. by intros [= ->]. }
  split_and!; [done|done|done|done|done|].
  split.
  - intros Hempty. by rewrite <- Hr5, Hempty.
  - intros Hnone. rewrite <- Hr5 in Hnone.
    destruct (strip_last_dash b) as [|c r]; [done|]. exfalso.
    apply Forall_cons in Hr1 as [[Hc| ->] _].
    + simpl in Hnone. by rewrite Hc in Hnone.
    + by apply Hr2.
Qed.

End SlugFacts.
